(** * preprocess-corpora: the per-language line normalisation of [process.py]

    A shallow embedding of [process.py] and the properties of its
    specification that were checked against it.

    Conventions of the embedding.
    - A Python [str] is the list of its Unicode code points ([list Z]);
      language codes, file names and the other ASCII identifiers of the
      program are Rocq strings.
    - A call that can raise returns a [result]; the exceptions that occur are
      collected in [exn].
    - The interpreter is CPython 3, release 3.7 or later. [re.sub] is
      modelled by a backtracking matcher over the abstract syntax of the
      pattern and by the replacement-template parser of the [re] module;
      [str.replace] and [str.strip] are modelled directly.
    - The character class of word characters needs the alphanumeric table of
      the Unicode database, which is no part of the program: outside ASCII it
      is the section variable [unicode_alnum]. *)

From Stdlib Require Import ZArith List Bool Lia.
From Stdlib Require Import Strings.String Strings.Ascii.
From stdpp Require Import base option list strings gmap.

Local Open Scope Z_scope.

(** ** Python strings and exceptions *)

(** The code points of an ASCII literal. *)
Definition str (s : string) : list Z :=
  List.map (fun a => Z.of_N (N_of_ascii a)) (list_ascii_of_string s).

(** The exceptions of the program: [re.error] from the regular-expression
    module, [UnicodeDecodeError] from the UTF-8 reader of [codecs.open], and
    the usage error [BadParameter] with which [click.Choice] refuses a value. *)
Inductive exn : Type :=
| ReError (msg : string)
| UnicodeDecodeError
| BadParameter (value : string).

Inductive result (A : Type) : Type :=
| Ok (a : A)
| Raise (e : exn).
Arguments Ok {A} a.
Arguments Raise {A} e.

Definition bind {A B : Type} (m : result A) (k : A -> result B) : result B :=
  match m with
  | Ok a => k a
  | Raise e => Raise e
  end.

Notation "'try' x <- m 'in' k" := (bind m (fun x => k))
  (at level 10, x name, m at level 100, k at level 200,
   format "'[v' 'try'  x  <-  m  'in' '/' k ']'").

(** ** Character classes *)

Definition chr_eq (c : Z) : Z -> bool := fun x => x =? c.

(** [str.isspace], which is also the class [\s] of a [str] pattern and the
    set that [str.strip] removes (Py_UNICODE_ISSPACE). *)
Definition is_space (c : Z) : bool :=
  ((9 <=? c) && (c <=? 13)) || ((28 <=? c) && (c <=? 32))
  || (c =? 133) || (c =? 160) || (c =? 5760)
  || ((8192 <=? c) && (c <=? 8202))
  || (c =? 8232) || (c =? 8233) || (c =? 8239) || (c =? 8287) || (c =? 12288).

(** The ASCII part of [str.isalnum]. *)
Definition ascii_alnum (c : Z) : bool :=
  ((48 <=? c) && (c <=? 57)) || ((65 <=? c) && (c <=? 90))
  || ((97 <=? c) && (c <=? 122)).

(** [[A-Z]] and [[.,?!]]. *)
Definition is_upper_AZ (c : Z) : bool := (65 <=? c) && (c <=? 90).
Definition is_sentence_punct (c : Z) : bool :=
  (c =? 46) || (c =? 44) || (c =? 63) || (c =? 33).

(** ** Regular expressions: syntax *)

(** The constructs that the patterns of [process.py] use. A capturing group
    carries its number; [(?:r)] is [r] itself. Repetition occurs only as
    [\s+], a class repeated. *)
Inductive regex : Type :=
| Cls (p : Z -> bool)          (* one character of a class, or a literal *)
| Bol                          (* ^ *)
| Eol                          (* $ *)
| Cat (r1 r2 : regex)          (* r1 r2 *)
| Alt (r1 r2 : regex)          (* r1|r2 *)
| Opt (r : regex)              (* r?, greedy *)
| PlusCls (p : Z -> bool)      (* c+ for a class c, greedy *)
| Grp (n : nat) (r : regex).   (* the capturing group number n *)

Definition Chr (c : Z) : regex := Cls (chr_eq c).

Fixpoint ngroups (r : regex) : nat :=
  match r with
  | Cls _ | Bol | Eol | PlusCls _ => 0%nat
  | Cat r1 r2 | Alt r1 r2 => (ngroups r1 + ngroups r2)%nat
  | Opt r => ngroups r
  | Grp _ r => S (ngroups r)
  end.

(** ** Regular expressions: matching at one position *)

(** The state of a match attempt: whether the position is the start of the
    whole string, how many characters the attempt has consumed, what is left
    of the string, and the text of the groups closed so far (latest first). *)
Record mstate : Type := MState {
  m_bol : bool;
  m_len : nat;
  m_rest : list Z;
  m_groups : list (nat * list Z)
}.

Definition consume (p : Z -> bool) (st : mstate) (k : mstate -> option mstate)
  : option mstate :=
  match m_rest st with
  | c :: rest =>
      if p c then k (MState false (S (m_len st)) rest (m_groups st)) else None
  | [] => None
  end.

(** Zero or more characters of the class, the longest run first. *)
Fixpoint many (p : Z -> bool) (len : nat) (rest : list Z)
    (groups : list (nat * list Z)) (k : mstate -> option mstate)
  : option mstate :=
  match rest with
  | c :: rest' =>
      if p c then
        match many p (S len) rest' groups k with
        | Some m => Some m
        | None => k (MState false len rest groups)
        end
      else k (MState false len rest groups)
  | [] => k (MState false len rest groups)
  end.

(** The backtracking matcher, in continuation-passing style: [k] is the rest
    of the pattern, and the first success in the order of the alternatives is
    the match, as in the [re] module. [$] matches at the end of the string
    and before a newline that ends it. *)
Fixpoint rmatch (r : regex) (st : mstate) (k : mstate -> option mstate)
  : option mstate :=
  match r with
  | Cls p => consume p st k
  | Bol => if m_bol st then k st else None
  | Eol =>
      match m_rest st with
      | [] => k st
      | [c] => if c =? 10 then k st else None
      | _ => None
      end
  | Cat r1 r2 => rmatch r1 st (fun st' => rmatch r2 st' k)
  | Alt r1 r2 =>
      match rmatch r1 st k with
      | Some m => Some m
      | None => rmatch r2 st k
      end
  | Opt r1 =>
      match rmatch r1 st k with
      | Some m => Some m
      | None => k st
      end
  | PlusCls p =>
      consume p st (fun st' => many p (m_len st') (m_rest st') (m_groups st') k)
  | Grp n r1 =>
      rmatch r1 st (fun st' =>
        k (MState (m_bol st') (m_len st') (m_rest st')
             ((n, take (m_len st' - m_len st) (m_rest st)) :: m_groups st')))
  end.

(** A match is accepted as it is, unless the previous match at this position
    was empty: then it has to consume something. *)
Definition accept (must_advance : bool) (st : mstate) : option mstate :=
  if must_advance && Nat.eqb (m_len st) 0 then None else Some st.

Definition match_at (r : regex) (bol : bool) (s : list Z) (must_advance : bool)
  : option (nat * list (nat * list Z)) :=
  match rmatch r (MState bol 0 s []) (accept must_advance) with
  | Some m => Some (m_len m, m_groups m)
  | None => None
  end.

(** ** Regular expressions: replacement templates *)

(** A compiled template: literal characters and references to groups. *)
Inductive titem : Type :=
| TLit (c : Z)
| TGroup (n : nat).

Definition is_ascii_letter (c : Z) : bool :=
  ((65 <=? c) && (c <=? 90)) || ((97 <=? c) && (c <=? 122)).

Definition is_digit (c : Z) : bool := (48 <=? c) && (c <=? 57).

(** The escapes that the template parser knows besides group references:
    [\a \b \f \n \r \t \v] and the backslash itself. *)
Definition template_escape (c : Z) : option Z :=
  if c =? 97 then Some 7 else if c =? 98 then Some 8
  else if c =? 102 then Some 12 else if c =? 110 then Some 10
  else if c =? 114 then Some 13 else if c =? 116 then Some 9
  else if c =? 118 then Some 11 else if c =? 92 then Some 92
  else None.

(** [parse_template] of the [re] module (CPython 3.7 and later), for a
    pattern with [groups] capturing groups. A backslash followed by a digit
    from 1 to 9 refers to a group; a known escape stands for its character;
    any other escape made of an ASCII letter is refused with [re.error]
    (the module documents: unknown escapes in repl consisting of a backslash
    and an ASCII letter now are errors; releases before 3.7 warned and kept
    the escape as written); an unknown escape of another character stays as
    written. The forms this program never writes (named and octal references,
    references of several digits) are not modelled and are reported as an
    error of their own. *)
Fixpoint parse_template (groups : nat) (t : list Z) : result (list titem) :=
  match t with
  | [] => Ok []
  | c :: rest =>
      if c =? 92 then
        match rest with
        | [] => Raise (ReError "bad escape (end of pattern)")
        | e :: rest' =>
            if (49 <=? e) && (e <=? 57) then
              match rest' with
              | d :: _ =>
                  if is_digit d then Raise (ReError "template form outside the model")
                  else if (Z.to_nat (e - 48) <=? groups)%nat then
                    try items <- parse_template groups rest' in
                    Ok (TGroup (Z.to_nat (e - 48)) :: items)
                  else Raise (ReError "invalid group reference")
              | [] =>
                  if (Z.to_nat (e - 48) <=? groups)%nat then
                    Ok [TGroup (Z.to_nat (e - 48))]
                  else Raise (ReError "invalid group reference")
              end
            else if (e =? 48) || (e =? 103) then
              Raise (ReError "template form outside the model")
            else
              match template_escape e with
              | Some x =>
                  try items <- parse_template groups rest' in Ok (TLit x :: items)
              | None =>
                  if is_ascii_letter e then Raise (ReError "bad escape")
                  else
                    try items <- parse_template groups rest' in
                    Ok (TLit 92 :: TLit e :: items)
              end
        end
      else
        try items <- parse_template groups rest in Ok (TLit c :: items)
  end.

Fixpoint group_text (n : nat) (groups : list (nat * list Z)) : list Z :=
  match groups with
  | [] => []
  | (m, text) :: groups' => if Nat.eqb m n then text else group_text n groups'
  end.

(** A group that took no part in the match expands to the empty string. *)
Fixpoint expand (tpl : list titem) (groups : list (nat * list Z)) : list Z :=
  match tpl with
  | [] => []
  | TLit c :: tpl' => c :: expand tpl' groups
  | TGroup n :: tpl' => group_text n groups ++ expand tpl' groups
  end.

(** ** [re.sub] *)

(** The scan of [re.sub] over the string, position by position. [skip]
    counts the characters that the last match still covers; [bol] holds at
    the first position only. Where a match is found its expansion is written
    and the scan resumes behind it; where none is found the character is
    copied. An empty match is replaced too, after which a match at the same
    position has to consume something. *)
Fixpoint sub_scan (r : regex) (tpl : list titem) (bol : bool) (s : list Z)
    (skip : nat) : list Z :=
  match s with
  | [] =>
      match skip with
      | O =>
          match match_at r bol [] false with
          | Some (_, g) => expand tpl g
          | None => []
          end
      | S _ => []
      end
  | c :: rest =>
      match skip with
      | S k => sub_scan r tpl false rest k
      | O =>
          match match_at r bol s false with
          | Some (S n, g) => expand tpl g ++ sub_scan r tpl false rest n
          | Some (O, g) =>
              expand tpl g ++
              match match_at r bol s true with
              | Some (S n, g') => expand tpl g' ++ sub_scan r tpl false rest n
              | _ => c :: sub_scan r tpl false rest 0
              end
          | None => c :: sub_scan r tpl false rest 0
          end
      end
  end.

(** [re.sub(pattern, repl, s)] for a string [repl]: the template is compiled
    first, whether or not the pattern occurs in [s], and a template that does
    not compile raises [re.error]. *)
Definition re_sub (r : regex) (repl : list Z) (s : list Z) : result (list Z) :=
  try tpl <- parse_template (ngroups r) repl in
  Ok (sub_scan r tpl true s 0).

(** ** [str.replace] and [str.strip] *)

Fixpoint starts_with (old s : list Z) : bool :=
  match old, s with
  | [], _ => true
  | o :: old', c :: s' => (c =? o) && starts_with old' s'
  | _ :: _, [] => false
  end.

(** The scan of [s.replace(old, new)]: occurrences are found from left to
    right and do not overlap. *)
Fixpoint replace_scan (old new : list Z) (s : list Z) (skip : nat) : list Z :=
  match s with
  | [] => match old with [] => new | _ :: _ => [] end
  | c :: rest =>
      match skip with
      | S k => replace_scan old new rest k
      | O =>
          if starts_with old s then
            match length old with
            | O => new ++ c :: replace_scan old new rest 0
            | S n => new ++ replace_scan old new rest n
            end
          else c :: replace_scan old new rest 0
      end
  end.

Definition str_replace (old new s : list Z) : list Z := replace_scan old new s 0.

Fixpoint lstrip (s : list Z) : list Z :=
  match s with
  | [] => []
  | c :: rest => if is_space c then lstrip rest else s
  end.

(** [s.strip()] *)
Definition strip (s : list Z) : list Z := rev (lstrip (rev (lstrip s))).

(** ** Languages *)

Definition GERMAN : string := "de".
Definition ENGLISH : string := "en".
Definition SPANISH : string := "es".
Definition FRENCH : string := "fr".
Definition ITALIAN : string := "it".
Definition DUTCH : string := "nl".
Definition RUSSIAN : string := "ru".
Definition CATALAN : string := "ca".
Definition SWEDISH : string := "sv".

Definition LANGUAGES : list string :=
  [GERMAN; ENGLISH; SPANISH; FRENCH; ITALIAN; DUTCH; RUSSIAN; CATALAN; SWEDISH].

(** [language in [...]] *)
Definition lang_in (language : string) (codes : list string) : bool :=
  existsb (String.eqb language) codes.

(** The characters the program names by code point. *)
Definition SOFT_HYPHEN : Z := 173.          (* U+00AD *)
Definition MIDDLE_DOT : Z := 183.           (* U+00B7 *)
Definition FIGURE_DASH : Z := 8210.         (* U+2012 *)
Definition EN_DASH : Z := 8211.             (* U+2013 *)
Definition EM_DASH : Z := 8212.             (* U+2014 *)
Definition ELLIPSIS : Z := 8230.            (* U+2026 *)
Definition LEFT_GUILLEMET : Z := 171.       (* U+00AB *)
Definition RIGHT_GUILLEMET : Z := 187.      (* U+00BB *)
Definition LEFT_SINGLE_GUILLEMET : Z := 8249.   (* U+2039 *)
Definition RIGHT_SINGLE_GUILLEMET : Z := 8250.  (* U+203A *)
Definition LEFT_DOUBLE_QUOTE : Z := 8220.   (* U+201C *)
Definition RIGHT_DOUBLE_QUOTE : Z := 8221.  (* U+201D *)
Definition LEFT_SINGLE_QUOTE : Z := 8216.   (* U+2018 *)
Definition RIGHT_SINGLE_QUOTE : Z := 8217.  (* U+2019 *)
Definition E_GRAVE : Z := 200.              (* U+00C8 *)
Definition APOSTROPHE : Z := 39.            (* U+0027 *)
Definition QUOTE : Z := 34.                 (* U+0022 *)
Definition BACKSLASH : Z := 92.
Definition NEWLINE : Z := 10.

(** A table for [unicode_alnum] that knows no alphanumeric outside ASCII; the
    concrete instances below run on ASCII lines, for which the table is never
    consulted. *)
Definition ascii_only : Z -> bool := fun _ => false.

(** ** The rule functions of [process.py] *)

Section Pipeline.

(** [str.isalnum] outside ASCII, from the Unicode database. *)
Variable unicode_alnum : Z -> bool.

(** The class [\w] of a [str] pattern: alphanumeric or the underscore. *)
Definition is_word (c : Z) : bool :=
  if c <? 128 then ascii_alnum c || (c =? 95) else unicode_alnum c.

(** [r'\u2019(\w)'] *)
Definition apostrophe_pattern : regex :=
  Cat (Chr RIGHT_SINGLE_QUOTE) (Grp 1 (Cls is_word)).

(** The replacement [r'\u0027\1'], character by character: a backslash, the
    letter u, the digits 0027, a backslash, the digit 1. *)
Definition apostrophe_template : list Z :=
  BACKSLASH :: str "u0027" ++ BACKSLASH :: str "1".

(** The docstring: converts left single quotation marks to apostrophes if
    there is a lowercase letter behind it. *)
Definition normalize_apostrophes (line : list Z) : result (list Z) :=
  re_sub apostrophe_pattern apostrophe_template line.

Definition remove_soft_hyphens (line : list Z) : list Z :=
  let line := str_replace [SOFT_HYPHEN] [] line in
  let line := str_replace [MIDDLE_DOT] [] line in
  line.

(** [r'\s+'] *)
Definition spaces_pattern : regex := PlusCls is_space.

Definition remove_double_spaces (line : list Z) : result (list Z) :=
  try line <- re_sub spaces_pattern (str " ") line in
  Ok (strip line).

(** [r'(\w)\s?\.(\w)'] *)
Definition period_pattern : regex :=
  Cat (Grp 1 (Cls is_word))
    (Cat (Opt (Cls is_space)) (Cat (Chr 46) (Grp 2 (Cls is_word)))).

Definition fix_period_spacing (line : list Z) : result (list Z) :=
  try line <- re_sub period_pattern (str "\1. \2") line in
  Ok (strip line).

(** [r'(\w)-\s(\w)'] *)
Definition hyphen_pattern : regex :=
  Cat (Grp 1 (Cls is_word))
    (Cat (Chr 45) (Cat (Cls is_space) (Grp 2 (Cls is_word)))).

Definition fix_hyphenization (language : string) (line : list Z)
  : result (list Z) :=
  try line <- re_sub hyphen_pattern (str "\1-\2") line in
  let line :=
    if String.eqb language DUTCH then
      let line := str_replace (str "-en ") (str "- en ") line in
      let line := str_replace (str "-of ") (str "- of ") line in
      line
    else line in
  let line :=
    if String.eqb language GERMAN then
      let line := str_replace (str "-und ") (str "- und ") line in
      let line := str_replace (str "-oder ") (str "- oder ") line in
      line
    else line in
  Ok line.

(** The patterns of [replace_quotes], in the order of the source:
    [r'\s\''], [r'\'([A-Z]|\.|\s|$)'], [r'(,\s)\''], [r'(^|\.\s?)-\s?'],
    [r'([.,?!])\s(\q(?:\s|$))'], [r'([.,?!])\s?(\q)-'], [r'(^\q)\s'] and
    [r'q\.'], where q stands for the double quotation mark. *)
Definition french_apostrophe_pattern : regex :=
  Cat (Cls is_space) (Chr APOSTROPHE).

Definition dutch_closing_pattern : regex :=
  Cat (Chr APOSTROPHE)
    (Grp 1 (Alt (Cls is_upper_AZ) (Alt (Chr 46) (Alt (Cls is_space) Eol)))).

Definition dutch_comma_pattern : regex :=
  Cat (Grp 1 (Cat (Chr 44) (Cls is_space))) (Chr APOSTROPHE).

Definition russian_hyphen_pattern : regex :=
  Cat (Grp 1 (Alt Bol (Cat (Chr 46) (Opt (Cls is_space)))))
    (Cat (Chr 45) (Opt (Cls is_space))).

Definition russian_closing_pattern : regex :=
  Cat (Grp 1 (Cls is_sentence_punct))
    (Cat (Cls is_space) (Grp 2 (Cat (Chr QUOTE) (Alt (Cls is_space) Eol)))).

Definition russian_quote_hyphen_pattern : regex :=
  Cat (Grp 1 (Cls is_sentence_punct))
    (Cat (Opt (Cls is_space)) (Cat (Grp 2 (Chr QUOTE)) (Chr 45))).

Definition russian_opening_pattern : regex :=
  Cat (Grp 1 (Cat Bol (Chr QUOTE))) (Cls is_space).

Definition catalan_period_pattern : regex := Cat (Chr QUOTE) (Chr 46).

Definition replace_quotes (language : string) (line : list Z)
  : result (list Z) :=
  let line :=
    if lang_in language [GERMAN; CATALAN] then
      let line := str_replace [LEFT_GUILLEMET] [QUOTE] line in
      let line := str_replace [RIGHT_GUILLEMET] [QUOTE] line in
      let line := str_replace [LEFT_SINGLE_GUILLEMET] [APOSTROPHE] line in
      let line := str_replace [RIGHT_SINGLE_GUILLEMET] [APOSTROPHE] line in
      let line := str_replace (str "<") [APOSTROPHE] line in
      let line := str_replace (str ">") [APOSTROPHE] line in
      line
    else line in
  let line :=
    if lang_in language [DUTCH; FRENCH; CATALAN; SWEDISH] then
      let line := str_replace [LEFT_DOUBLE_QUOTE] [QUOTE] line in
      let line := str_replace [RIGHT_DOUBLE_QUOTE] [QUOTE] line in
      let line := str_replace [LEFT_SINGLE_QUOTE] [APOSTROPHE] line in
      let line := str_replace [RIGHT_SINGLE_QUOTE] [APOSTROPHE] line in
      line
    else line in
  try line <-
    (if String.eqb language FRENCH then
       re_sub french_apostrophe_pattern [APOSTROPHE] line
     else Ok line) in
  try line <-
    (if String.eqb language DUTCH then
       let line := str_replace [APOSTROPHE; APOSTROPHE] [APOSTROPHE] line in
       try line <- re_sub dutch_closing_pattern (QUOTE :: str "\1") line in
       try line <- re_sub dutch_comma_pattern (str "\1" ++ [QUOTE]) line in
       Ok (str_replace (QUOTE :: str "t ") (APOSTROPHE :: str "t ") line)
     else Ok line) in
  try line <-
    (if String.eqb language RUSSIAN then
       let line := str_replace [QUOTE; QUOTE] [QUOTE] line in
       try line <- re_sub russian_hyphen_pattern (str "\1") line in
       try line <- re_sub russian_closing_pattern (str "\1\2") line in
       try line <- re_sub russian_quote_hyphen_pattern (str "\1\2 -") line in
       re_sub russian_opening_pattern (str "\1") line
     else Ok line) in
  if String.eqb language CATALAN then
    re_sub catalan_period_pattern [46; QUOTE] line
  else Ok line.

(** [r'\s?D\s?'] for a dash [D] *)
Definition dash_pattern (dash : Z) : regex :=
  Cat (Opt (Cls is_space)) (Cat (Chr dash) (Opt (Cls is_space))).

Definition replace_common_errors (language : string) (line : list Z)
  : result (list Z) :=
  try line <- re_sub (dash_pattern FIGURE_DASH) (str " - ") line in
  try line <- re_sub (dash_pattern EN_DASH) (str " - ") line in
  try line <- re_sub (dash_pattern EM_DASH) (str " - ") line in
  let line := str_replace [ELLIPSIS] (str "...") line in
  let line :=
    if String.eqb language ITALIAN then
      str_replace [69; APOSTROPHE] [E_GRAVE] line
    else line in
  Ok line.

(** ** [process_file] *)

(** The body of the loop of [process_file] for a line that is not blank. *)
Definition process_line (language : string) (line : list Z) : result (list Z) :=
  try line <- remove_double_spaces line in
  let line := remove_soft_hyphens line in
  try line <- replace_common_errors language line in
  try line <- fix_period_spacing line in
  try line <- fix_hyphenization language line in
  try line <- replace_quotes language line in
  if lang_in language [ENGLISH; DUTCH; GERMAN] then normalize_apostrophes line
  else Ok line.

End Pipeline.

Section FileNormalizer.

Variable unicode_alnum : Z -> bool.

(** The run of the loop [for line in f_in] over the reader of
    [codecs.open(file_in, 'rb', 'utf-8')], as the loop receives it: at each
    turn the reader yields a line with its terminator, ends the iteration,
    or raises [UnicodeDecodeError]. It is the sequence the reader yields and
    not the bytes of the file: the reader decodes a block of bytes ahead of
    the lines it yields, so that it may raise before it has yielded lines
    that stand before the offending bytes, and it passes over an incomplete
    sequence at the very end of the file without raising. *)
Inductive stream : Type :=
| Eof
| Line (line : list Z) (rest : stream)
| Undecodable.

(** [if line.strip():] *)
Definition nonblank (line : list Z) : bool :=
  match strip line with
  | [] => false
  | _ :: _ => true
  end.

(** The first loop of [process_file], with the list [lines] it appends to. *)
Fixpoint read_lines (language : string) (f_in : stream) (lines : list (list Z))
  : result (list (list Z)) :=
  match f_in with
  | Eof => Ok lines
  | Undecodable => Raise UnicodeDecodeError
  | Line line rest =>
      if nonblank line then
        try line <- process_line unicode_alnum language line in
        read_lines language rest (lines ++ [line])
      else read_lines language rest lines
  end.

(** The second loop: three writes for each line. *)
Fixpoint write_lines (lines : list (list Z)) (f_out : list Z) : list Z :=
  match lines with
  | [] => f_out
  | line :: rest =>
      write_lines rest (((f_out ++ line) ++ [NEWLINE]) ++ [NEWLINE])
  end.

(** [process_file]: the text written to [file_out], or the exception raised
    before [file_out] is opened. *)
Definition process_file (language : string) (f_in : stream) : result (list Z) :=
  try lines <- read_lines language f_in [] in
  Ok (write_lines lines []).

(** The loop of [process_folder] over the text files that [glob] lists, in
    the order it lists them; each is given by its base name and its content.
    [folder_out] maps a base name to the text of the file of that name. An
    exception raised by [process_file] is not caught and ends the loop. The
    two optional collaborators (conversion of documents, the external
    tokenizer) are switched off. *)
Fixpoint process_folder (language : string) (files : list (string * stream))
    (folder_out : gmap string (list Z)) : gmap string (list Z) * result unit :=
  match files with
  | [] => (folder_out, Ok tt)
  | (file_in, f_in) :: rest =>
      match process_file language f_in with
      | Ok text => process_folder language rest (<[file_in := text]> folder_out)
      | Raise e => (folder_out, Raise e)
      end
  end.

(** [click.Choice(choices)]: a value of the list is passed on, any other is
    refused with a usage error. *)
Definition click_choice (choices : list string) (value : string)
  : result string :=
  if existsb (String.eqb value) choices then Ok value
  else Raise (BadParameter value).

(** The command [process_folder] as [click] runs it: the [language] argument
    is checked against [LANGUAGES] before the function body runs. *)
Definition process_folder_command (language : string)
    (files : list (string * stream)) (folder_out : gmap string (list Z))
  : gmap string (list Z) * result unit :=
  match click_choice LANGUAGES language with
  | Ok language => process_folder language files folder_out
  | Raise e => (folder_out, Raise e)
  end.

(** ** The specification's wording, for comparison with the code *)

(** The pipeline as the specification lists it: six steps for every
    language, and a seventh for English, Dutch and German. *)
Definition pipeline_steps (language : string)
  : list (list Z -> result (list Z)) :=
  [ remove_double_spaces;
    (fun line => Ok (remove_soft_hyphens line));
    replace_common_errors language;
    fix_period_spacing unicode_alnum;
    fix_hyphenization unicode_alnum language;
    replace_quotes language ]
  ++ (if lang_in language [ENGLISH; DUTCH; GERMAN]
      then [normalize_apostrophes unicode_alnum] else []).

Fixpoint run_steps (steps : list (list Z -> result (list Z))) (line : list Z)
  : result (list Z) :=
  match steps with
  | [] => Ok line
  | step :: rest => try line <- step line in run_steps rest line
  end.

(** An occurrence of word character, hyphen, whitespace, word character at
    the head of a string. *)
Definition hyphen_gap_here (s : list Z) : bool :=
  match s with
  | w1 :: h :: sp :: w2 :: _ =>
      is_word unicode_alnum w1 && (h =? 45) && is_space sp
      && is_word unicode_alnum w2
  | _ => false
  end.

(** Such an occurrence anywhere in the string. *)
Fixpoint has_hyphen_gap (s : list Z) : bool :=
  match s with
  | [] => false
  | _ :: rest => hyphen_gap_here s || has_hyphen_gap rest
  end.

(** The left-to-right collapse of those occurrences: where one stands at the
    head, its whitespace is dropped and the scan resumes behind its second
    word character. *)
Fixpoint hyphen_scan (s : list Z) : list Z :=
  match s with
  | [] => []
  | w1 :: rest =>
      match rest with
      | h :: sp :: w2 :: rest' =>
          if hyphen_gap_here s then w1 :: h :: w2 :: hyphen_scan rest'
          else w1 :: hyphen_scan rest
      | _ => w1 :: hyphen_scan rest
      end
  end.

(** The repair of conjunctions after the collapse. *)
Definition hyphen_repair (language : string) (line : list Z) : list Z :=
  if String.eqb language DUTCH then
    str_replace (str "-of ") (str "- of ")
      (str_replace (str "-en ") (str "- en ") line)
  else if String.eqb language GERMAN then
    str_replace (str "-oder ") (str "- oder ")
      (str_replace (str "-und ") (str "- und ") line)
  else line.

(** Runs of whitespace replaced by one space each. *)
Fixpoint collapse (in_run : bool) (s : list Z) : list Z :=
  match s with
  | [] => []
  | c :: rest =>
      if is_space c then
        if in_run then collapse true rest else 32 :: collapse true rest
      else c :: collapse false rest
  end.

(** The output the specification describes for the retained lines. *)
Definition paragraphs (lines : list (list Z)) : list Z :=
  concat (List.map (fun line => line ++ [NEWLINE; NEWLINE]) lines).

(** The lines a reader yields before its end, and whether it ends well. *)
Fixpoint stream_lines (f_in : stream) : list (list Z) :=
  match f_in with
  | Eof | Undecodable => []
  | Line line rest => line :: stream_lines rest
  end.

Fixpoint decodable (f_in : stream) : bool :=
  match f_in with
  | Eof => true
  | Undecodable => false
  | Line _ rest => decodable rest
  end.

End FileNormalizer.

(** ** Vocabulary of the proofs *)

(** A match state whose remaining text and groups consist of characters
    with the property [P]. *)
Definition state_in (P : Z -> Prop) (st : mstate) : Prop :=
  Forall P (m_rest st) /\ Forall (fun g => Forall P g.2) (m_groups st).

Definition template_in (P : Z -> Prop) (tpl : list titem) : Prop :=
  Forall (fun i => match i with TLit c => P c | TGroup _ => True end) tpl.

(** The length of the longest prefix in a class. *)
Fixpoint span (p : Z -> bool) (s : list Z) : nat :=
  match s with
  | [] => 0%nat
  | c :: rest => if p c then S (span p rest) else 0%nat
  end.

(** A string in which every whitespace character is a space that follows
    no other whitespace; [after_space] tells what precedes the string. *)
Fixpoint tidy (after_space : bool) (s : list Z) : bool :=
  match s with
  | [] => true
  | c :: rest =>
      if is_space c then (c =? 32) && negb after_space && tidy true rest
      else tidy false rest
  end.

(** A string that does not begin with whitespace. *)
Definition no_lead (s : list Z) : Prop :=
  match s with
  | [] => True
  | c :: _ => is_space c = false
  end.

(** One optional whitespace character at the head. *)
Definition opt_space (s : list Z) : nat :=
  match s with
  | c :: _ => if is_space c then 1%nat else 0%nat
  | [] => 0%nat
  end.

(** The length of the match of [dash_pattern] at the head of a string. *)
Definition dash_match_len (dash : Z) (s : list Z) : option nat :=
  match s with
  | [] => None
  | c :: rest =>
      if is_space c then
        match rest with
        | d :: rest' =>
            if d =? dash then Some (2 + opt_space rest')%nat else None
        | [] => None
        end
      else if c =? dash then Some (1 + opt_space rest)%nat else None
  end.

(** The compiled template of the dashes: space, hyphen-minus, space. *)
Definition dash_template : list titem := [TLit 32; TLit 45; TLit 32].

(** [replace_common_errors] before its Italian rule. *)
Definition dashes_ellipsis (line : list Z) : list Z :=
  str_replace [ELLIPSIS] (str "...")
    (sub_scan (dash_pattern EM_DASH) dash_template true
       (sub_scan (dash_pattern EN_DASH) dash_template true
          (sub_scan (dash_pattern FIGURE_DASH) dash_template true line 0) 0) 0).

(** The compiled templates of the other substitutions. *)
Definition hyphen_template : list titem := [TGroup 1; TLit 45; TGroup 2].
Definition catalan_template : list titem := [TLit 46; TLit QUOTE].

(** [replace_quotes] for Catalan before its last rule: the guillemets, the
    angle brackets and the curly quotes made straight. *)
Definition catalan_quotes (line : list Z) : list Z :=
  str_replace [RIGHT_SINGLE_QUOTE] [APOSTROPHE]
    (str_replace [LEFT_SINGLE_QUOTE] [APOSTROPHE]
       (str_replace [RIGHT_DOUBLE_QUOTE] [QUOTE]
          (str_replace [LEFT_DOUBLE_QUOTE] [QUOTE]
             (str_replace (str ">") [APOSTROPHE]
                (str_replace (str "<") [APOSTROPHE]
                   (str_replace [RIGHT_SINGLE_GUILLEMET] [APOSTROPHE]
                      (str_replace [LEFT_SINGLE_GUILLEMET] [APOSTROPHE]
                         (str_replace [RIGHT_GUILLEMET] [QUOTE]
                            (str_replace [LEFT_GUILLEMET] [QUOTE] line))))))))).

(** The characters that the Catalan rules turn into the straight double
    quotation mark, and that mark itself. *)
Definition is_double_quote_mark (c : Z) : bool :=
  existsb (Z.eqb c)
    [QUOTE; LEFT_GUILLEMET; RIGHT_GUILLEMET; LEFT_DOUBLE_QUOTE;
     RIGHT_DOUBLE_QUOTE].

Definition ends_with_double_quote (s : list Z) : bool :=
  match last s with
  | Some c => is_double_quote_mark c
  | None => false
  end.

Definition begins_with_period (s : list Z) : bool :=
  match s with
  | c :: _ => c =? 46
  | [] => false
  end.

(** The characters that the replacement texts and templates of the program
    write: the space, the hyphen-minus, the period, the capital E with grave
    accent, the two straight quotes, and the letters of the conjunctions and
    of the Dutch clitic. *)
Definition written_chars : list Z :=
  [32; 45; 46; E_GRAVE; QUOTE; APOSTROPHE] ++ str "enofudrt".

Definition literal (c : Z) : bool := existsb (Z.eqb c) written_chars.

Definition literal_template (tpl : list titem) : bool :=
  forallb (fun i => match i with TLit c => literal c | TGroup _ => true end) tpl.

(** A call that returns a string of characters with the property [P]. *)
Definition returns_in (P : Z -> Prop) (m : result (list Z)) : Prop :=
  exists out : list Z, m = Ok out /\ Forall P out.

(** The steps of the loop body between [remove_soft_hyphens] and
    [normalize_apostrophes]. *)
Definition late_steps (unicode_alnum : Z -> bool) (language : string)
    (line : list Z) : result (list Z) :=
  try line <- replace_common_errors language line in
  try line <- fix_period_spacing unicode_alnum line in
  try line <- fix_hyphenization unicode_alnum language line in
  replace_quotes language line.

(** What [process_folder] has written after the files of a list, each of
    which [process_file] accepts. *)
Fixpoint written (unicode_alnum : Z -> bool) (language : string)
    (files : list (string * stream)) (folder_out : gmap string (list Z))
  : gmap string (list Z) :=
  match files with
  | [] => folder_out
  | (file_in, f_in) :: rest =>
      match process_file unicode_alnum language f_in with
      | Ok text => written unicode_alnum language rest (<[file_in := text]> folder_out)
      | Raise _ => written unicode_alnum language rest folder_out
      end
  end.

Definition succeeds {A : Type} (m : result A) : bool :=
  match m with
  | Ok _ => true
  | Raise _ => false
  end.

(** Two occurrences that share a word character: the second begins where
    the first ends. *)
Fixpoint has_overlap (unicode_alnum : Z -> bool) (s : list Z) : bool :=
  match s with
  | [] => false
  | _ :: rest =>
      (hyphen_gap_here unicode_alnum s
       && hyphen_gap_here unicode_alnum (drop 3 s))
      || has_overlap unicode_alnum rest
  end.

(** A pattern every match of which reads a character without the property
    [Q]: on a string all of whose characters have [Q] it matches nowhere. *)
Inductive Requires (Q : Z -> Prop) : regex -> Prop :=
| Requires_cls (p : Z -> bool) :
    (forall c, Q c -> p c = false) -> Requires Q (Cls p)
| Requires_plus (p : Z -> bool) :
    (forall c, Q c -> p c = false) -> Requires Q (PlusCls p)
| Requires_cat_l (r1 r2 : regex) : Requires Q r1 -> Requires Q (Cat r1 r2)
| Requires_cat_r (r1 r2 : regex) : Requires Q r2 -> Requires Q (Cat r1 r2)
| Requires_alt (r1 r2 : regex) :
    Requires Q r1 -> Requires Q r2 -> Requires Q (Alt r1 r2)
| Requires_grp (n : nat) (r : regex) : Requires Q r -> Requires Q (Grp n r).

(** The word at the head of a string (empty when the string is empty or
    begins with whitespace) and the words behind it; a word is a longest run
    of characters that are no whitespace. *)
Fixpoint chunks (s : list Z) : list Z * list (list Z) :=
  match s with
  | [] => ([], [])
  | c :: rest =>
      let (w, ws) := chunks rest in
      if is_space c then
        ([], match w with [] => ws | _ :: _ => w :: ws end)
      else (c :: w, ws)
  end.

(** The words of a string, as [str.split()] gives them. *)
Definition words (s : list Z) : list (list Z) :=
  let (w, ws) := chunks s in
  match w with [] => ws | _ :: _ => w :: ws end.

(** Each word with a space before it. *)
Definition spaced (ws : list (list Z)) : list Z :=
  flat_map (fun w => 32 :: w) ws.

(** The words with one space between them, as the join of [str.join] with a
    space gives them. *)
Definition join_words (ws : list (list Z)) : list Z :=
  match ws with
  | [] => []
  | w :: rest => w ++ spaced rest
  end.

(** A string that does not end with whitespace. *)
Fixpoint ends_clean (s : list Z) : bool :=
  match s with
  | [] => true
  | c :: rest =>
      match rest with
      | [] => negb (is_space c)
      | _ :: _ => ends_clean rest
      end
  end.

(** The characters of a string that are no whitespace, in their order. *)
Definition ink (s : list Z) : list Z :=
  List.filter (fun c => negb (is_space c)) s.

(** The compiled template of [fix_period_spacing]. *)
Definition period_template : list titem :=
  [TGroup 1; TLit 46; TLit 32; TGroup 2].

(** The characters [replace_common_errors] rewrites for every language. *)
Definition is_dash_or_ellipsis (c : Z) : bool :=
  (c =? FIGURE_DASH) || (c =? EN_DASH) || (c =? EM_DASH) || (c =? ELLIPSIS).

(** The guillemets and angle brackets that [replace_quotes] rewrites for
    German and Catalan, and the curly quotes it rewrites for Dutch, French,
    Catalan and Swedish. *)
Definition is_angle_quote (c : Z) : bool :=
  existsb (Z.eqb c)
    [LEFT_GUILLEMET; RIGHT_GUILLEMET; LEFT_SINGLE_GUILLEMET;
     RIGHT_SINGLE_GUILLEMET; 60; 62].

Definition is_curly_quote (c : Z) : bool :=
  existsb (Z.eqb c)
    [LEFT_DOUBLE_QUOTE; RIGHT_DOUBLE_QUOTE; LEFT_SINGLE_QUOTE;
     RIGHT_SINGLE_QUOTE].

(** A guillemet or an angle bracket made straight, and a curly quotation
    mark made straight; any other character as it is. *)
Definition straight_angle (c : Z) : Z :=
  if (c =? LEFT_GUILLEMET) || (c =? RIGHT_GUILLEMET) then QUOTE
  else if (c =? LEFT_SINGLE_GUILLEMET) || (c =? RIGHT_SINGLE_GUILLEMET)
          || (c =? 60) || (c =? 62) then APOSTROPHE
  else c.

Definition straight_curly (c : Z) : Z :=
  if (c =? LEFT_DOUBLE_QUOTE) || (c =? RIGHT_DOUBLE_QUOTE) then QUOTE
  else if (c =? LEFT_SINGLE_QUOTE) || (c =? RIGHT_SINGLE_QUOTE) then APOSTROPHE
  else c.

Section PeriodScan.

Variable unicode_alnum : Z -> bool.

(** An occurrence of word character, period, word character at the head of
    a string, and one with a whitespace character before the period. *)
Definition period_tight_here (s : list Z) : bool :=
  match s with
  | w1 :: p :: w2 :: _ =>
      is_word unicode_alnum w1 && (p =? 46) && is_word unicode_alnum w2
  | _ => false
  end.

Definition period_loose_here (s : list Z) : bool :=
  match s with
  | w1 :: sp :: p :: w2 :: _ =>
      is_word unicode_alnum w1 && is_space sp && (p =? 46)
      && is_word unicode_alnum w2
  | _ => false
  end.

(** Such an occurrence anywhere in the string. *)
Fixpoint has_period_gap (s : list Z) : bool :=
  match s with
  | [] => false
  | _ :: rest =>
      period_tight_here s || period_loose_here s || has_period_gap rest
  end.

(** The left-to-right scan of those occurrences: where one stands at the
    head, it is written as word character, period, space, word character,
    and the scan resumes behind its second word character. *)
Fixpoint period_scan (s : list Z) : list Z :=
  match s with
  | [] => []
  | w1 :: rest =>
      match rest with
      | _ :: x :: rest' =>
          if period_tight_here s then w1 :: 46 :: 32 :: x :: period_scan rest'
          else
            match rest' with
            | w2 :: rest'' =>
                if period_loose_here s
                then w1 :: 46 :: 32 :: w2 :: period_scan rest''
                else w1 :: period_scan rest
            | [] => w1 :: period_scan rest
            end
      | _ => w1 :: period_scan rest
      end
  end.

End PeriodScan.

(** The characters some rule of the program looks for other than the
    period: the soft hyphen and the middle dot, the dashes and the ellipsis,
    the hyphen-minus, the straight quotation marks, the guillemets and angle
    brackets, and the curly quotation marks. *)
Definition special_chars : list Z :=
  [SOFT_HYPHEN; MIDDLE_DOT; FIGURE_DASH; EN_DASH; EM_DASH; ELLIPSIS; 45;
   APOSTROPHE; QUOTE; LEFT_GUILLEMET; RIGHT_GUILLEMET; LEFT_SINGLE_GUILLEMET;
   RIGHT_SINGLE_GUILLEMET; 60; 62; LEFT_DOUBLE_QUOTE; RIGHT_DOUBLE_QUOTE;
   LEFT_SINGLE_QUOTE; RIGHT_SINGLE_QUOTE].

Definition plain (c : Z) : bool := negb (existsb (Z.eqb c) special_chars).

(** * Facts about the regular-expression engine *)

Section EngineFacts.

Lemma bind_ok {A B : Type} (m : result A) (k : A -> result B) (a : A) :
  m = Ok a -> bind m k = k a.
Proof. intros ->. reflexivity. Qed.

Lemma re_sub_compiled (r : regex) (repl : list Z) (tpl : list titem) (s : list Z) :
  parse_template (ngroups r) repl = Ok tpl ->
  re_sub r repl s = Ok (sub_scan r tpl true s 0).
Proof. intros H. unfold re_sub. rewrite H. reflexivity. Qed.

(** Skipping the characters a match covers. *)
Lemma sub_scan_skip (r : regex) (tpl : list titem) :
  forall (s : list Z) (k : nat) (bol : bool),
    (S k <= length s)%nat ->
    sub_scan r tpl bol s (S k) = sub_scan r tpl false (drop (S k) s) 0.
Proof.
  induction s as [|c s IH]; intros k bol Hk; simpl in Hk; [lia|].
  destruct k as [|k]; simpl.
  - rewrite drop_0. reflexivity.
  - destruct s as [|d s']; simpl in Hk; [lia|].
    rewrite (IH k false) by (simpl; lia). reflexivity.
Qed.

Lemma replace_scan_skip (old new : list Z) :
  forall (s : list Z) (k : nat),
    (S k <= length s)%nat ->
    replace_scan old new s (S k) = replace_scan old new (drop (S k) s) 0.
Proof.
  induction s as [|c s IH]; intros k Hk; simpl in Hk; [lia|].
  destruct k as [|k]; simpl.
  - rewrite drop_0. reflexivity.
  - destruct s as [|d s']; simpl in Hk; [lia|].
    rewrite (IH k) by (simpl; lia). reflexivity.
Qed.

(** *** Where the characters of a result come from *)

Variable P : Z -> Prop.

Lemma many_in (p : Z -> bool) (k : mstate -> option mstate) :
  (forall st m, state_in P st -> k st = Some m -> state_in P m) ->
  forall rest len groups m,
    Forall P rest -> Forall (fun g => Forall P g.2) groups ->
    many p len rest groups k = Some m -> state_in P m.
Proof.
  intros Hk. induction rest as [|c rest IH]; intros len groups m Hr Hg; simpl.
  - intros H. eapply Hk; [|exact H]. split; assumption.
  - destruct (p c).
    + destruct (many p (S len) rest groups k) as [m'|] eqn:E.
      * intros [= <-]. inversion Hr; subst. eapply IH; eauto.
      * intros H. eapply Hk; [|exact H]. split; assumption.
    + intros H. eapply Hk; [|exact H]. split; assumption.
Qed.

Lemma consume_in (p : Z -> bool) (st : mstate) (k : mstate -> option mstate)
    (m : mstate) :
  (forall st' m', state_in P st' -> k st' = Some m' -> state_in P m') ->
  state_in P st -> consume p st k = Some m -> state_in P m.
Proof.
  intros Hk [Hr Hg]. unfold consume.
  destruct (m_rest st) as [|c rest] eqn:E; [discriminate|].
  destruct (p c); [|discriminate].
  inversion Hr; subst. apply Hk. split; assumption.
Qed.

Lemma rmatch_in (r : regex) :
  forall (st : mstate) (k : mstate -> option mstate) (m : mstate),
    (forall st' m', state_in P st' -> k st' = Some m' -> state_in P m') ->
    state_in P st -> rmatch r st k = Some m -> state_in P m.
Proof.
  induction r as [p| | |r1 IH1 r2 IH2|r1 IH1 r2 IH2|r1 IH1|p|n r1 IH1];
    intros st k m Hk Hst; simpl.
  - apply consume_in; assumption.
  - destruct (m_bol st); [apply Hk; assumption|discriminate].
  - destruct (m_rest st) as [|c [|d rest]]; try discriminate.
    + apply Hk; assumption.
    + destruct (c =? 10); [apply Hk; assumption|discriminate].
  - apply IH1; [|assumption]. intros st' m' Hst'. apply IH2; assumption.
  - destruct (rmatch r1 st k) as [m'|] eqn:E.
    + intros [= <-]. eapply IH1; eauto.
    + eapply IH2; eauto.
  - destruct (rmatch r1 st k) as [m'|] eqn:E.
    + intros [= <-]. eapply IH1; eauto.
    + apply Hk; assumption.
  - apply consume_in; [|assumption].
    intros st' m' [Hr Hg]. apply many_in; assumption.
  - apply IH1; [|assumption].
    intros st' m' [Hr Hg]. apply Hk. split; simpl; [assumption|].
    constructor; [|assumption]. simpl.
    apply Forall_take. apply Hst.
Qed.

Lemma match_at_in (r : regex) (bol : bool) (s : list Z) (adv : bool)
    (n : nat) (g : list (nat * list Z)) :
  Forall P s -> match_at r bol s adv = Some (n, g) ->
  Forall (fun x => Forall P x.2) g.
Proof.
  intros Hs. unfold match_at.
  destruct (rmatch r (MState bol 0 s []) (accept adv)) as [m|] eqn:E;
    [|discriminate].
  intros [= <- <-].
  apply (rmatch_in r _ _ m) in E.
  - apply E.
  - intros st' m' Hst'. unfold accept.
    destruct (adv && Nat.eqb (m_len st') 0); [discriminate|].
    intros [= <-]. assumption.
  - split; simpl; [assumption|constructor].
Qed.

Lemma group_text_in (n : nat) (g : list (nat * list Z)) :
  Forall (fun x => Forall P x.2) g -> Forall P (group_text n g).
Proof.
  induction 1 as [|[m text] g Hx Hg IH]; simpl; [constructor|].
  destruct (Nat.eqb m n); assumption.
Qed.

Lemma expand_in (tpl : list titem) (g : list (nat * list Z)) :
  template_in P tpl -> Forall (fun x => Forall P x.2) g ->
  Forall P (expand tpl g).
Proof.
  intros Ht Hg. induction Ht as [|[c|n] tpl Hi Ht IH]; simpl.
  - constructor.
  - constructor; assumption.
  - apply Forall_app. split; [apply group_text_in; assumption|assumption].
Qed.

(** [re.sub] writes characters of the string and of the template only. *)
Lemma sub_scan_in (r : regex) (tpl : list titem) :
  template_in P tpl ->
  forall (s : list Z) (bol : bool) (skip : nat),
    Forall P s -> Forall P (sub_scan r tpl bol s skip).
Proof.
  intros Ht. induction s as [|c s IH]; intros bol skip Hs; simpl.
  - destruct skip; [|constructor].
    destruct (match_at r bol [] false) as [[n g]|] eqn:E; [|constructor].
    apply expand_in; [assumption|]. exact (match_at_in _ _ _ _ _ _ Hs E).
  - assert (Hc : P c) by (inversion Hs; assumption).
    assert (Hs' : Forall P s) by (inversion Hs; assumption).
    destruct skip as [|k]; [|apply IH; assumption].
    destruct (match_at r bol (c :: s) false) as [[n g]|] eqn:E.
    + assert (Hg : Forall P (expand tpl g)).
      { apply expand_in; [assumption|]. exact (match_at_in _ _ _ _ _ _ Hs E). }
      destruct n as [|n].
      * apply Forall_app. split; [assumption|].
        destruct (match_at r bol (c :: s) true) as [[n' g']|] eqn:E'.
        -- destruct n' as [|n'].
           ++ constructor; [assumption|apply IH; assumption].
           ++ apply Forall_app. split; [|apply IH; assumption].
              apply expand_in; [assumption|].
              exact (match_at_in _ _ _ _ _ _ Hs E').
        -- constructor; [assumption|apply IH; assumption].
      * apply Forall_app. split; [assumption|apply IH; assumption].
    + constructor; [assumption|apply IH; assumption].
Qed.

(** So does [str.replace]. *)
Lemma replace_scan_in (old new : list Z) :
  Forall P new ->
  forall (s : list Z) (skip : nat),
    Forall P s -> Forall P (replace_scan old new s skip).
Proof.
  intros Hn. induction s as [|c s IH]; intros skip Hs; simpl.
  - destruct old; [assumption|constructor].
  - assert (Hc : P c) by (inversion Hs; assumption).
    assert (Hs' : Forall P s) by (inversion Hs; assumption).
    destruct skip as [|k]; [|apply IH; assumption].
    destruct (starts_with old (c :: s)).
    + destruct (length old).
      * apply Forall_app. split; [assumption|].
        constructor; [assumption|apply IH; assumption].
      * apply Forall_app. split; [assumption|apply IH; assumption].
    + constructor; [assumption|apply IH; assumption].
Qed.

Lemma str_replace_in (old new s : list Z) :
  Forall P new -> Forall P s -> Forall P (str_replace old new s).
Proof. intros. apply replace_scan_in; assumption. Qed.

Lemma lstrip_in (s : list Z) : Forall P s -> Forall P (lstrip s).
Proof.
  induction 1 as [|c s Hc Hs IH]; simpl; [constructor|].
  destruct (is_space c); [assumption|constructor; assumption].
Qed.

Lemma strip_in (s : list Z) : Forall P s -> Forall P (strip s).
Proof.
  intros H. unfold strip.
  apply Forall_rev, lstrip_in, Forall_rev, lstrip_in, H.
Qed.

End EngineFacts.

(** * Whitespace: [remove_double_spaces] *)

Section Whitespace.

Lemma many_accept (p : Z -> bool) (adv : bool) :
  forall (rest : list Z) (len : nat) (groups : list (nat * list Z)),
    (0 < len)%nat ->
    many p len rest groups (accept adv)
    = Some (MState false (len + span p rest) (drop (span p rest) rest) groups).
Proof.
  assert (Hacc : forall len rest groups, (0 < len)%nat ->
            accept adv (MState false len rest groups)
            = Some (MState false len rest groups)).
  { intros len rest groups Hlen. unfold accept. simpl.
    destruct len; [lia|]. simpl. rewrite andb_false_r. reflexivity. }
  induction rest as [|c rest IH]; intros len groups Hlen; simpl.
  - rewrite Nat.add_0_r. apply Hacc, Hlen.
  - destruct (p c); simpl.
    + rewrite IH by lia. f_equal. f_equal. lia.
    + rewrite Nat.add_0_r. apply Hacc, Hlen.
Qed.

Lemma match_at_spaces (bol adv : bool) (c : Z) (s : list Z) :
  match_at spaces_pattern bol (c :: s) adv
  = if is_space c then Some (S (span is_space s), []) else None.
Proof.
  unfold match_at, spaces_pattern. simpl. unfold consume. simpl.
  destruct (is_space c); [|reflexivity].
  rewrite many_accept by lia. reflexivity.
Qed.

Lemma match_at_spaces_nil (bol adv : bool) :
  match_at spaces_pattern bol [] adv = None.
Proof. reflexivity. Qed.

Lemma span_le (p : Z -> bool) (s : list Z) : (span p s <= length s)%nat.
Proof. induction s as [|c s IH]; simpl; [lia|]. destruct (p c); simpl; lia. Qed.

Lemma drop_span_lstrip (s : list Z) : drop (span is_space s) s = lstrip s.
Proof.
  induction s as [|c s IH]; simpl; [reflexivity|].
  destruct (is_space c); simpl; [assumption|reflexivity].
Qed.

Lemma collapse_true_lstrip (s : list Z) :
  collapse true s = collapse false (lstrip s).
Proof.
  induction s as [|c s IH]; simpl; [reflexivity|].
  destruct (is_space c) eqn:E; simpl; [assumption|].
  rewrite E. reflexivity.
Qed.

Lemma lstrip_length (s : list Z) : (length (lstrip s) <= length s)%nat.
Proof.
  induction s as [|c s IH]; simpl; [lia|].
  destruct (is_space c); simpl; lia.
Qed.

(** [re.sub(r'\s+', ' ', s)] replaces each run of whitespace by one space. *)
Lemma sub_scan_spaces (s : list Z) :
  forall bol : bool, sub_scan spaces_pattern [TLit 32] bol s 0 = collapse false s.
Proof.
  remember (length s) as n eqn:Hn. revert s Hn.
  induction n as [n IH] using lt_wf_ind. intros s Hn bol.
  destruct s as [|c s]; [reflexivity|].
  cbn [sub_scan]. rewrite match_at_spaces. cbn [collapse].
  destruct (is_space c) eqn:E.
  - cbn [expand app]. f_equal.
    rewrite collapse_true_lstrip, <- drop_span_lstrip.
    pose proof (span_le is_space s) as Hle.
    destruct (span is_space s) as [|k] eqn:Ek.
    + rewrite drop_0. apply (IH (length s)); [simpl in Hn; lia|reflexivity].
    + rewrite sub_scan_skip by lia.
      apply (IH (length (drop (S k) s))); [|reflexivity].
      rewrite length_drop. simpl in Hn. lia.
  - f_equal. apply (IH (length s)); [simpl in Hn; lia|reflexivity].
Qed.

Lemma remove_double_spaces_eq (line : list Z) :
  remove_double_spaces line = Ok (strip (collapse false line)).
Proof.
  unfold remove_double_spaces.
  rewrite (re_sub_compiled _ _ [TLit 32]) by reflexivity.
  simpl. rewrite sub_scan_spaces. reflexivity.
Qed.

Lemma tidy_collapse (s : list Z) :
  forall b : bool, tidy b (collapse b s) = true.
Proof.
  induction s as [|c s IH]; intros b; simpl; [reflexivity|].
  destruct (is_space c) eqn:E.
  - destruct b; [apply IH|].
    simpl. rewrite IH. reflexivity.
  - simpl. rewrite E. apply IH.
Qed.

Lemma collapse_tidy (s : list Z) :
  forall b : bool, tidy b s = true -> collapse b s = s.
Proof.
  induction s as [|c s IH]; intros b; simpl; [reflexivity|].
  destruct (is_space c) eqn:E.
  - intros H. apply andb_prop in H as [H Hs]. apply andb_prop in H as [Hc Hb].
    apply Z.eqb_eq in Hc. destruct b; [discriminate|].
    subst c. f_equal. apply IH, Hs.
  - intros H. f_equal. apply IH, H.
Qed.

Lemma tidy_weaken (s : list Z) (b : bool) : tidy b s = true -> tidy false s = true.
Proof.
  destruct s as [|c s]; simpl; [reflexivity|].
  destruct (is_space c); [|trivial].
  intros H. apply andb_prop in H as [H Hs]. apply andb_prop in H as [Hc _].
  rewrite Hc, Hs. reflexivity.
Qed.

Lemma tidy_app_r (s1 s2 : list Z) :
  forall b : bool, tidy b (s1 ++ s2) = true -> tidy false s2 = true.
Proof.
  induction s1 as [|c s1 IH]; intros b; simpl.
  - apply tidy_weaken.
  - destruct (is_space c).
    + intros H. apply andb_prop in H as [_ Hs]. apply (IH true), Hs.
    + apply IH.
Qed.

Lemma tidy_app_l (s1 s2 : list Z) :
  forall b : bool, tidy b (s1 ++ s2) = true -> tidy b s1 = true.
Proof.
  induction s1 as [|c s1 IH]; intros b; simpl; [reflexivity|].
  destruct (is_space c).
  - intros H. apply andb_prop in H as [H Hs]. rewrite H. apply (IH true), Hs.
  - apply IH.
Qed.

Lemma lstrip_suffix (s : list Z) : exists pre, s = pre ++ lstrip s.
Proof.
  induction s as [|c s [pre IH]]; simpl.
  - exists []. reflexivity.
  - destruct (is_space c).
    + exists (c :: pre). simpl. f_equal. exact IH.
    + exists []. reflexivity.
Qed.

Lemma strip_prefix (s : list Z) : exists post, lstrip s = strip s ++ post.
Proof.
  unfold strip. destruct (lstrip_suffix (rev (lstrip s))) as [pre H].
  exists (rev pre).
  rewrite <- (rev_involutive (lstrip s)) at 1. rewrite H at 1.
  rewrite rev_app_distr. reflexivity.
Qed.

Lemma tidy_strip (s : list Z) : tidy false s = true -> tidy false (strip s) = true.
Proof.
  intros H. destruct (lstrip_suffix s) as [pre Hpre].
  destruct (strip_prefix s) as [post Hpost].
  rewrite Hpre in H. apply tidy_app_r in H. rewrite Hpost in H.
  apply tidy_app_l in H. exact H.
Qed.

Lemma no_lead_lstrip (s : list Z) : no_lead (lstrip s).
Proof.
  induction s as [|c s IH]; simpl; [exact I|].
  destruct (is_space c) eqn:E; [exact IH|]. simpl. exact E.
Qed.

Lemma lstrip_no_lead (s : list Z) : no_lead s -> lstrip s = s.
Proof. destruct s as [|c s]; simpl; [reflexivity|]. intros ->. reflexivity. Qed.

Lemma no_lead_prefix (s1 s2 : list Z) : no_lead (s1 ++ s2) -> no_lead s1.
Proof. destruct s1; simpl; trivial. Qed.

Lemma strip_strip (s : list Z) : strip (strip s) = strip s.
Proof.
  assert (H1 : no_lead (strip s)).
  { destruct (strip_prefix s) as [post Hpost].
    apply (no_lead_prefix _ post). rewrite <- Hpost. apply no_lead_lstrip. }
  unfold strip at 1. rewrite (lstrip_no_lead _ H1).
  unfold strip. rewrite rev_involutive.
  rewrite (lstrip_no_lead (lstrip _)) by apply no_lead_lstrip.
  reflexivity.
Qed.

(** C8. [remove_double_spaces] is idempotent: it returns a line, and applied
    to that line it returns the same line. *)
Theorem remove_double_spaces_idempotent (line : list Z) :
  exists once : list Z,
    remove_double_spaces line = Ok once /\ remove_double_spaces once = Ok once.
Proof.
  exists (strip (collapse false line)). split.
  - apply remove_double_spaces_eq.
  - rewrite remove_double_spaces_eq. f_equal.
    rewrite collapse_tidy.
    + apply strip_strip.
    + apply tidy_strip, tidy_collapse.
Qed.

End Whitespace.

(** * Literal replacements and barriers *)

Section Replacements.

Lemma accept_S (adv b : bool) (n : nat) (rest : list Z) (g : list (nat * list Z)) :
  accept adv (MState b (S n) rest g) = Some (MState b (S n) rest g).
Proof. unfold accept. simpl. rewrite andb_false_r. reflexivity. Qed.

(** Replacing a single character works character by character. *)
Lemma str_replace_char (e : Z) (new s : list Z) :
  str_replace [e] new s = flat_map (fun c => if c =? e then new else [c]) s.
Proof.
  unfold str_replace. induction s as [|c s IH]; [reflexivity|].
  cbn [replace_scan starts_with length flat_map].
  rewrite andb_true_r. destruct (c =? e).
  - rewrite IH. reflexivity.
  - rewrite IH. reflexivity.
Qed.

Lemma str_replace_char_app (e : Z) (new a b : list Z) :
  str_replace [e] new (a ++ b) = str_replace [e] new a ++ str_replace [e] new b.
Proof. rewrite !str_replace_char. apply flat_map_app. Qed.

Lemma str_replace_char_other (e x : Z) (new : list Z) :
  x <> e -> str_replace [e] new [x] = [x].
Proof.
  intros H. rewrite str_replace_char. simpl.
  destruct (x =? e) eqn:E; [apply Z.eqb_eq in E; contradiction|reflexivity].
Qed.

(** The scan for a pattern of two characters. *)
Lemma replace_scan_two (x y : Z) (new : list Z) (c d : Z) (s : list Z) :
  replace_scan [x; y] new (c :: d :: s) 0
  = if (c =? x) && (d =? y) then new ++ replace_scan [x; y] new s 0
    else c :: replace_scan [x; y] new (d :: s) 0.
Proof.
  cbn [replace_scan starts_with length]. rewrite andb_true_r. reflexivity.
Qed.

Lemma replace_scan_one (x y : Z) (new : list Z) (c : Z) :
  replace_scan [x; y] new [c] 0 = [c].
Proof.
  cbn [replace_scan starts_with]. rewrite andb_false_r. reflexivity.
Qed.

(** An occurrence of a pattern of two different characters is replaced
    wherever it stands. *)
Lemma str_replace_two_hit (x y : Z) (new : list Z) :
  x <> y ->
  forall a b : list Z,
    str_replace [x; y] new (a ++ x :: y :: b)
    = str_replace [x; y] new a ++ new ++ str_replace [x; y] new b.
Proof.
  intros Hxy a b. unfold str_replace.
  remember (length a) as n eqn:Hn. revert a Hn.
  induction n as [n IH] using lt_wf_ind. intros a Hn.
  destruct a as [|c [|d a]].
  - cbn [app]. rewrite replace_scan_two, !Z.eqb_refl. reflexivity.
  - cbn [app]. rewrite replace_scan_two, replace_scan_one.
    replace (x =? y) with false by (symmetry; apply Z.eqb_neq, Hxy).
    rewrite andb_false_r.
    rewrite replace_scan_two, !Z.eqb_refl. reflexivity.
  - cbn [app]. rewrite !replace_scan_two.
    destruct ((c =? x) && (d =? y)).
    + rewrite <- app_assoc. f_equal.
      apply (IH (length a)); [simpl in Hn; lia|reflexivity].
    + simpl. f_equal.
      apply (IH (length (d :: a)) ltac:(simpl in *; lia) (d :: a) eq_refl).
Qed.

(** Two characters that are no occurrence, and can neither end nor begin
    one, stay and separate the scan. *)
Lemma str_replace_two_miss (x y : Z) (new : list Z) (u v : Z) :
  u <> y -> v <> x -> (u <> x \/ v <> y) ->
  forall a b : list Z,
    str_replace [x; y] new (a ++ u :: v :: b)
    = str_replace [x; y] new a ++ u :: v :: str_replace [x; y] new b.
Proof.
  intros Huy Hvx Huv a b. unfold str_replace.
  assert (Hv : replace_scan [x; y] new (v :: b) 0
               = v :: replace_scan [x; y] new b 0).
  { destruct b as [|d b]; [apply replace_scan_one|].
    rewrite replace_scan_two.
    replace (v =? x) with false by (symmetry; apply Z.eqb_neq, Hvx).
    reflexivity. }
  assert (Hu : replace_scan [x; y] new (u :: v :: b) 0
               = u :: v :: replace_scan [x; y] new b 0).
  { rewrite replace_scan_two.
    replace ((u =? x) && (v =? y)) with false.
    - rewrite Hv. reflexivity.
    - symmetry. apply andb_false_iff.
      destruct Huv; [left|right]; apply Z.eqb_neq; assumption. }
  remember (length a) as n eqn:Hn. revert a Hn.
  induction n as [n IH] using lt_wf_ind. intros a Hn.
  destruct a as [|c [|d a]].
  - cbn [app]. exact Hu.
  - cbn [app]. rewrite replace_scan_two, replace_scan_one.
    replace (u =? y) with false by (symmetry; apply Z.eqb_neq, Huy).
    rewrite andb_false_r, Hu. reflexivity.
  - cbn [app]. rewrite !replace_scan_two.
    destruct ((c =? x) && (d =? y)).
    + rewrite <- app_assoc. f_equal.
      apply (IH (length a)); [simpl in Hn; lia|reflexivity].
    + simpl. f_equal.
      apply (IH (length (d :: a)) ltac:(simpl in *; lia) (d :: a) eq_refl).
Qed.

(** A character at which no match begins, and which no match reads, is
    copied and separates the scan of [re.sub]. *)
Lemma sub_scan_barrier (r : regex) (tpl : list titem) (x : Z) :
  (forall a b bol adv, match_at r bol (a ++ x :: b) adv = match_at r bol a adv) ->
  (forall bol s adv n g,
      match_at r bol s adv = Some (n, g) -> (1 <= n <= length s)%nat) ->
  forall (a b : list Z) (bol : bool),
    sub_scan r tpl bol (a ++ x :: b) 0
    = sub_scan r tpl bol a 0 ++ x :: sub_scan r tpl false b 0.
Proof.
  intros Hlocal Hlen a b.
  assert (Hnil : forall bol adv, match_at r bol [] adv = None).
  { intros bol adv. destruct (match_at r bol [] adv) as [[n g]|] eqn:E;
      [|reflexivity].
    apply Hlen in E. simpl in E. lia. }
  remember (length a) as m eqn:Hm. revert a Hm.
  induction m as [m IH] using lt_wf_ind. intros a Hm bol.
  destruct a as [|c a].
  - pose proof (Hlocal [] b bol false) as H0. cbn [app] in *.
    cbn [sub_scan]. rewrite H0, Hnil. reflexivity.
  - change ((c :: a) ++ x :: b) with (c :: (a ++ x :: b)).
    cbn [sub_scan].
    change (c :: (a ++ x :: b)) with ((c :: a) ++ x :: b).
    rewrite (Hlocal (c :: a) b bol false).
    destruct (match_at r bol (c :: a) false) as [[n g]|] eqn:E.
    + pose proof (Hlen _ _ _ _ _ E) as Hn. simpl in Hn.
      destruct n as [|n]; [lia|].
      rewrite <- app_assoc. f_equal.
      destruct n as [|k].
      * apply (IH (length a)); [simpl in Hm; lia|reflexivity].
      * rewrite !sub_scan_skip by (rewrite ?length_app; simpl; lia).
        rewrite drop_app_le by lia.
        apply (IH (length (drop (S k) a))); [|reflexivity].
        rewrite length_drop. simpl in Hm. lia.
    + simpl. f_equal.
      apply (IH (length a)); [simpl in Hm; lia|reflexivity].
Qed.

(** *** The dashes of [replace_common_errors] *)

Lemma match_at_dash (dash : Z) (bol adv : bool) (s : list Z) :
  is_space dash = false ->
  match_at (dash_pattern dash) bol s adv
  = option_map (fun n => (n, [])) (dash_match_len dash s).
Proof.
  intros Hd. unfold match_at, dash_pattern, Chr, chr_eq, dash_match_len, opt_space.
  destruct s as [|c rest]; [reflexivity|].
  cbn. unfold consume. cbn.
  destruct (is_space c) eqn:Ec.
  - destruct rest as [|d rest']; cbn.
    + destruct (c =? dash) eqn:E; [|reflexivity].
      apply Z.eqb_eq in E. congruence.
    + destruct (d =? dash) eqn:Ed; cbn.
      * destruct rest' as [|e rest'']; cbn; rewrite ?accept_S; [reflexivity|].
        destruct (is_space e); cbn; rewrite ?accept_S; reflexivity.
      * destruct (c =? dash) eqn:E; [|reflexivity].
        apply Z.eqb_eq in E. congruence.
  - destruct (c =? dash) eqn:E; [|reflexivity].
    destruct rest as [|e rest'']; cbn; rewrite ?accept_S; [reflexivity|].
    destruct (is_space e); cbn; rewrite ?accept_S; reflexivity.
Qed.

Lemma dash_match_len_bound (dash : Z) (s : list Z) (n : nat) :
  dash_match_len dash s = Some n -> (1 <= n <= length s)%nat.
Proof.
  unfold dash_match_len, opt_space.
  destruct s as [|c [|d [|e s]]]; simpl;
    repeat match goal with
      | |- context [if ?b then _ else _] => destruct b
      end; intros [= <-]; simpl; lia.
Qed.

Lemma dash_match_len_local (dash x : Z) (a b : list Z) :
  is_space x = false -> x <> dash ->
  dash_match_len dash (a ++ x :: b) = dash_match_len dash a.
Proof.
  intros Hx Hd. apply Z.eqb_neq in Hd.
  unfold dash_match_len, opt_space.
  destruct a as [|c [|d [|e a]]]; simpl; rewrite ?Hx, ?Hd; reflexivity.
Qed.

Lemma sub_scan_dash_bol (dash : Z) (tpl : list titem) (s : list Z) (bol : bool) :
  is_space dash = false ->
  sub_scan (dash_pattern dash) tpl bol s 0
  = sub_scan (dash_pattern dash) tpl false s 0.
Proof.
  intros Hd. destruct s as [|c s]; cbn [sub_scan]; rewrite !match_at_dash by exact Hd;
    reflexivity.
Qed.

Lemma sub_scan_dash_barrier (dash x : Z) (tpl : list titem) (a b : list Z) :
  is_space dash = false -> is_space x = false -> x <> dash ->
  sub_scan (dash_pattern dash) tpl true (a ++ x :: b) 0
  = sub_scan (dash_pattern dash) tpl true a 0
    ++ x :: sub_scan (dash_pattern dash) tpl true b 0.
Proof.
  intros Hd Hx Hxd.
  rewrite (sub_scan_dash_bol dash tpl b true Hd).
  apply sub_scan_barrier.
  - intros a' b' bol adv. rewrite !match_at_dash by exact Hd.
    rewrite dash_match_len_local by assumption. reflexivity.
  - intros bol s adv n g. rewrite match_at_dash by exact Hd.
    destruct (dash_match_len dash s) as [k|] eqn:E; [|discriminate].
    intros [= <- <-]. apply (dash_match_len_bound _ _ _ E).
Qed.

Lemma replace_common_errors_eq (language : string) (line : list Z) :
  replace_common_errors language line
  = Ok (if String.eqb language ITALIAN
        then str_replace [69; APOSTROPHE] [E_GRAVE] (dashes_ellipsis line)
        else dashes_ellipsis line).
Proof.
  unfold replace_common_errors, dashes_ellipsis.
  rewrite !(re_sub_compiled _ _ dash_template) by reflexivity.
  reflexivity.
Qed.

(** A character that is neither whitespace, nor a dash, nor the ellipsis
    passes through the common part of [replace_common_errors] and separates
    what it does on either side. *)
Lemma dashes_ellipsis_barrier (x : Z) (a b : list Z) :
  is_space x = false ->
  x <> FIGURE_DASH -> x <> EN_DASH -> x <> EM_DASH -> x <> ELLIPSIS ->
  dashes_ellipsis (a ++ x :: b) = dashes_ellipsis a ++ x :: dashes_ellipsis b.
Proof.
  intros Hx H1 H2 H3 H4. unfold dashes_ellipsis.
  rewrite !sub_scan_dash_barrier by (assumption || reflexivity).
  change (?l ++ x :: ?m) with (l ++ [x] ++ m).
  rewrite !str_replace_char_app, (str_replace_char_other _ _ _ H4).
  reflexivity.
Qed.

End Replacements.

(** * [replace_common_errors]: the Italian rule *)

Section CommonErrors.

Lemma dashes_ellipsis_nil : dashes_ellipsis [] = [].
Proof. reflexivity. Qed.

Lemma dashes_ellipsis_pair (x y : Z) (a b : list Z) :
  is_space x = false -> is_space y = false ->
  Forall (fun d => x <> d /\ y <> d) [FIGURE_DASH; EN_DASH; EM_DASH; ELLIPSIS] ->
  dashes_ellipsis (a ++ [x; y] ++ b)
  = dashes_ellipsis a ++ [x; y] ++ dashes_ellipsis b.
Proof.
  intros Hx Hy H.
  repeat match goal with
    | H : Forall _ (_ :: _) |- _ => inversion_clear H
    | H : _ /\ _ |- _ => destruct H
    end.
  cbn [app].
  rewrite dashes_ellipsis_barrier by assumption. f_equal. f_equal.
  apply (dashes_ellipsis_barrier y [] b); assumption.
Qed.

(** C4 (amended). For Italian, [replace_common_errors] replaces every
    occurrence of the capital letter E followed by the apostrophe U+0027 by
    the letter E with grave accent, whatever stands before and behind it; for
    every other language that sequence is left as it is; and the capital
    letter E followed by the right single quotation mark U+2019 is left as it
    is for every language, Italian included. *)
Theorem replace_common_errors_italian_apostrophe (language : string)
    (a b : list Z) :
  exists a' b' : list Z,
    replace_common_errors language a = Ok a' /\
    replace_common_errors language b = Ok b' /\
    replace_common_errors language (a ++ [69; APOSTROPHE] ++ b)
    = Ok (a' ++ (if String.eqb language ITALIAN then [E_GRAVE]
                 else [69; APOSTROPHE]) ++ b') /\
    replace_common_errors language (a ++ [69; RIGHT_SINGLE_QUOTE] ++ b)
    = Ok (a' ++ [69; RIGHT_SINGLE_QUOTE] ++ b').
Proof.
  assert (H1 : dashes_ellipsis (a ++ [69; APOSTROPHE] ++ b)
               = dashes_ellipsis a ++ [69; APOSTROPHE] ++ dashes_ellipsis b).
  { apply dashes_ellipsis_pair; [reflexivity|reflexivity|].
    repeat constructor; discriminate. }
  assert (H2 : dashes_ellipsis (a ++ [69; RIGHT_SINGLE_QUOTE] ++ b)
               = dashes_ellipsis a ++ [69; RIGHT_SINGLE_QUOTE] ++ dashes_ellipsis b).
  { apply dashes_ellipsis_pair; [reflexivity|reflexivity|].
    repeat constructor; discriminate. }
  rewrite !replace_common_errors_eq, H1, H2.
  destruct (String.eqb language ITALIAN).
  - eexists; eexists. split; [reflexivity|]. split; [reflexivity|]. split.
    + f_equal. apply (str_replace_two_hit 69 APOSTROPHE [E_GRAVE]). discriminate.
    + f_equal.
      apply (str_replace_two_miss 69 APOSTROPHE [E_GRAVE] 69 RIGHT_SINGLE_QUOTE);
        [discriminate|discriminate|right; discriminate].
  - eexists; eexists. repeat split; reflexivity.
Qed.

(** C4, as stated, fails: for Italian the capital letter E followed by the
    right single quotation mark U+2019 is not replaced. *)
Lemma replace_common_errors_right_quote_kept :
  replace_common_errors ITALIAN [69; RIGHT_SINGLE_QUOTE]
  = Ok [69; RIGHT_SINGLE_QUOTE]
  /\ replace_common_errors ITALIAN [69; RIGHT_SINGLE_QUOTE] <> Ok [E_GRAVE].
Proof. split; [reflexivity|]. vm_compute. discriminate. Qed.

End CommonErrors.

(** * [replace_quotes] *)

Section Quotes.

Lemma match_at_catalan (bol adv : bool) (s : list Z) :
  match_at catalan_period_pattern bol s adv
  = match s with
    | c :: d :: _ => if (c =? QUOTE) && (d =? 46) then Some (2%nat, []) else None
    | _ => None
    end.
Proof.
  unfold match_at, catalan_period_pattern, Chr, chr_eq.
  destruct s as [|c [|d s]]; cbn; unfold consume; cbn.
  - reflexivity.
  - destruct (c =? QUOTE); reflexivity.
  - destruct (c =? QUOTE); [|reflexivity]. cbn.
    destruct (d =? 46); [|reflexivity]. cbn. rewrite accept_S. reflexivity.
Qed.

(** The last rule for Catalan is the literal replacement of the quotation
    mark followed by a period. *)
Lemma sub_scan_catalan (s : list Z) :
  forall bol : bool,
    sub_scan catalan_period_pattern catalan_template bol s 0
    = str_replace [QUOTE; 46] [46; QUOTE] s.
Proof.
  unfold str_replace.
  remember (length s) as n eqn:Hn. revert s Hn.
  induction n as [n IH] using lt_wf_ind. intros s Hn bol.
  destruct s as [|c [|d s]].
  - reflexivity.
  - cbn [sub_scan]. rewrite match_at_catalan, replace_scan_one. reflexivity.
  - cbn [sub_scan]. rewrite match_at_catalan, replace_scan_two.
    destruct ((c =? QUOTE) && (d =? 46)).
    + cbn [expand catalan_template app]. f_equal. f_equal.
      apply (IH (length s)); [simpl in Hn; lia|reflexivity].
    + f_equal.
      apply (IH (length (d :: s)) ltac:(simpl in *; lia) (d :: s) eq_refl).
Qed.

Lemma replace_quotes_catalan_eq (line : list Z) :
  replace_quotes CATALAN line
  = Ok (str_replace [QUOTE; 46] [46; QUOTE] (catalan_quotes line)).
Proof.
  unfold replace_quotes. cbn [lang_in existsb String.eqb Ascii.eqb Bool.eqb
    CATALAN GERMAN DUTCH FRENCH SWEDISH RUSSIAN orb andb bind].
  rewrite (re_sub_compiled _ _ catalan_template) by reflexivity.
  rewrite sub_scan_catalan. reflexivity.
Qed.

Lemma catalan_quotes_app (a b : list Z) :
  catalan_quotes (a ++ b) = catalan_quotes a ++ catalan_quotes b.
Proof.
  unfold catalan_quotes.
  change (str "<") with [60]. change (str ">") with [62].
  rewrite !str_replace_char_app. reflexivity.
Qed.

(** A period followed by the quotation mark stays as it is where no
    occurrence of the mark followed by a period reaches into it. *)
Lemma str_replace_two_swapped (x y : Z) (new : list Z) :
  x <> y ->
  forall a b : list Z,
    last a <> Some x -> head b <> Some y ->
    str_replace [x; y] new (a ++ y :: x :: b)
    = str_replace [x; y] new a ++ y :: x :: str_replace [x; y] new b.
Proof.
  intros Hxy a b Ha Hb. unfold str_replace.
  assert (Hx : replace_scan [x; y] new (x :: b) 0
               = x :: replace_scan [x; y] new b 0).
  { destruct b as [|d b]; [apply replace_scan_one|].
    rewrite replace_scan_two.
    replace (d =? y) with false
      by (symmetry; apply Z.eqb_neq; intros ->; apply Hb; reflexivity).
    rewrite andb_false_r. reflexivity. }
  assert (Hy : replace_scan [x; y] new (y :: x :: b) 0
               = y :: x :: replace_scan [x; y] new b 0).
  { rewrite replace_scan_two.
    replace (y =? x) with false
      by (symmetry; apply Z.eqb_neq; congruence).
    cbn [andb]. rewrite Hx. reflexivity. }
  remember (length a) as n eqn:Hn. revert a Hn Ha.
  induction n as [n IH] using lt_wf_ind. intros a Hn Ha.
  destruct a as [|c [|d a]].
  - exact Hy.
  - cbn [app]. rewrite replace_scan_two, replace_scan_one.
    replace (c =? x) with false
      by (symmetry; apply Z.eqb_neq; intros ->; apply Ha; reflexivity).
    cbn [andb app]. rewrite Hy. reflexivity.
  - cbn [app]. rewrite !replace_scan_two.
    destruct ((c =? x) && (d =? y)).
    + rewrite <- app_assoc. f_equal.
      apply (IH (length a)); [simpl in Hn; lia|reflexivity|].
      destruct a as [|e a]; [discriminate|exact Ha].
    + cbn [app]. f_equal.
      apply (IH (length (d :: a)) ltac:(simpl in *; lia) (d :: a) eq_refl).
      exact Ha.
Qed.

Lemma catalan_quotes_single (c : Z) :
  exists d : Z,
    catalan_quotes [c] = [d]
    /\ (is_double_quote_mark c = false -> d <> QUOTE)
    /\ (c <> 46 -> d <> 46).
Proof.
  unfold catalan_quotes, is_double_quote_mark.
  change (str "<") with [60]. change (str ">") with [62].
  rewrite !str_replace_char. cbn [existsb].
  repeat (cbn [flat_map app];
          match goal with
          | |- context [if c =? ?m then _ else _] =>
              let E := fresh "E" in
              destruct (c =? m) eqn:E;
              [apply Z.eqb_eq in E; subst c; eexists;
               split; [reflexivity|];
               split; [|intros _; discriminate];
               first [intros H; discriminate H|intros _; discriminate]|]
          end).
  exists c. split; [reflexivity|]. split; [|trivial].
  intros H ->. discriminate H.
Qed.

Lemma catalan_quotes_last (a : list Z) :
  ends_with_double_quote a = false -> last (catalan_quotes a) <> Some QUOTE.
Proof.
  unfold ends_with_double_quote.
  destruct a as [|c a _] using rev_ind; [discriminate|].
  rewrite last_snoc, catalan_quotes_app.
  destruct (catalan_quotes_single c) as (d & -> & Hd & _).
  rewrite last_snoc. intros H [= ->]. exact (Hd H eq_refl).
Qed.

Lemma catalan_quotes_head (b : list Z) :
  begins_with_period b = false -> head (catalan_quotes b) <> Some 46.
Proof.
  destruct b as [|c b]; [discriminate|].
  change (c :: b) with ([c] ++ b). rewrite catalan_quotes_app.
  destruct (catalan_quotes_single c) as (d & -> & _ & Hd).
  cbn [begins_with_period app head]. intros H [= ->].
  apply Z.eqb_neq in H. exact (Hd H eq_refl).
Qed.

(** C5 (amended). For Catalan, [replace_quotes] ends by moving a period that
    follows a double quotation mark in front of it: wherever a straight
    double quote, a guillemet or a curly double quote is followed by a
    period, the output has the period followed by the straight double quote,
    and the text on either side is rewritten as it is on its own. A period
    that precedes such a mark is not moved behind it: where the period does
    not itself follow a double quotation mark and the mark is not followed
    by another period, the output has the period followed by the straight
    double quote again. *)
Theorem replace_quotes_catalan_period (a b : list Z) :
  exists a' b' : list Z,
    replace_quotes CATALAN a = Ok a' /\
    replace_quotes CATALAN b = Ok b' /\
    Forall (fun q : Z =>
              replace_quotes CATALAN (a ++ [q; 46] ++ b)
              = Ok (a' ++ [46; QUOTE] ++ b'))
      [QUOTE; LEFT_GUILLEMET; RIGHT_GUILLEMET;
       LEFT_DOUBLE_QUOTE; RIGHT_DOUBLE_QUOTE] /\
    (ends_with_double_quote a = false ->
     begins_with_period b = false ->
     Forall (fun q : Z =>
               replace_quotes CATALAN (a ++ [46; q] ++ b)
               = Ok (a' ++ [46; QUOTE] ++ b'))
       [QUOTE; LEFT_GUILLEMET; RIGHT_GUILLEMET;
        LEFT_DOUBLE_QUOTE; RIGHT_DOUBLE_QUOTE]).
Proof.
  exists (str_replace [QUOTE; 46] [46; QUOTE] (catalan_quotes a)),
         (str_replace [QUOTE; 46] [46; QUOTE] (catalan_quotes b)).
  split; [apply replace_quotes_catalan_eq|].
  split; [apply replace_quotes_catalan_eq|].
  split.
  - assert (H : forall q, catalan_quotes [q; 46] = [QUOTE; 46] ->
              replace_quotes CATALAN (a ++ [q; 46] ++ b)
              = Ok (str_replace [QUOTE; 46] [46; QUOTE] (catalan_quotes a)
                    ++ [46; QUOTE]
                    ++ str_replace [QUOTE; 46] [46; QUOTE] (catalan_quotes b))).
    { intros q Hq. rewrite replace_quotes_catalan_eq, !catalan_quotes_app, Hq.
      f_equal. apply (str_replace_two_hit QUOTE 46 [46; QUOTE]). discriminate. }
    repeat constructor; apply H; reflexivity.
  - intros Ha Hb.
    assert (H : forall q, catalan_quotes [46; q] = [46; QUOTE] ->
              replace_quotes CATALAN (a ++ [46; q] ++ b)
              = Ok (str_replace [QUOTE; 46] [46; QUOTE] (catalan_quotes a)
                    ++ [46; QUOTE]
                    ++ str_replace [QUOTE; 46] [46; QUOTE] (catalan_quotes b))).
    { intros q Hq. rewrite replace_quotes_catalan_eq, !catalan_quotes_app, Hq.
      f_equal. apply (str_replace_two_swapped QUOTE 46 [46; QUOTE]).
      - discriminate.
      - apply catalan_quotes_last, Ha.
      - apply catalan_quotes_head, Hb. }
    repeat constructor; apply H; reflexivity.
Qed.

(** C5, as stated, fails: a period that precedes the closing quotation mark
    stays where it is. *)
Lemma replace_quotes_catalan_period_before_quote :
  replace_quotes CATALAN (str "text" ++ [46; QUOTE])
  = Ok (str "text" ++ [46; QUOTE])
  /\ replace_quotes CATALAN (str "text" ++ [46; QUOTE])
     <> Ok (str "text" ++ [QUOTE; 46]).
Proof. split; [reflexivity|]. vm_compute. discriminate. Qed.

(** C9. [replace_quotes] returns the line as it is for English, Spanish and
    Italian: no branch of the function names these languages. *)
Theorem replace_quotes_identity_en_es_it (line : list Z) :
  replace_quotes ENGLISH line = Ok line
  /\ replace_quotes SPANISH line = Ok line
  /\ replace_quotes ITALIAN line = Ok line.
Proof.
  unfold replace_quotes.
  repeat split;
    match goal with
    | |- context [lang_in ?l _] =>
        replace (lang_in l [GERMAN; CATALAN]) with false by reflexivity;
        replace (lang_in l [DUTCH; FRENCH; CATALAN; SWEDISH]) with false
          by reflexivity;
        replace (String.eqb l FRENCH) with false by reflexivity;
        replace (String.eqb l DUTCH) with false by reflexivity;
        replace (String.eqb l RUSSIAN) with false by reflexivity;
        replace (String.eqb l CATALAN) with false by reflexivity
    end; reflexivity.
Qed.

End Quotes.

(** * [fix_hyphenization] *)

Section Hyphenation.

Variable unicode_alnum : Z -> bool.

Lemma match_at_hyphen (bol adv : bool) (s : list Z) :
  match_at (hyphen_pattern unicode_alnum) bol s adv
  = match s with
    | w1 :: _ :: _ :: w2 :: _ =>
        if hyphen_gap_here unicode_alnum s
        then Some (4%nat, [(2%nat, [w2]); (1%nat, [w1])]) else None
    | _ => None
    end.
Proof.
  unfold match_at, hyphen_pattern, hyphen_gap_here, Chr, chr_eq.
  destruct s as [|w1 [|h [|sp [|w2 s]]]]; cbn; unfold consume; cbn;
    repeat match goal with
      | |- context [if ?b then _ else _] => destruct b; cbn
      end; rewrite ?accept_S; reflexivity.
Qed.

(** [re.sub(r'(\w)-\s(\w)', r'\1-\2', s)] is the left-to-right collapse. *)
Lemma sub_scan_hyphen (s : list Z) :
  forall bol : bool,
    sub_scan (hyphen_pattern unicode_alnum) hyphen_template bol s 0
    = hyphen_scan unicode_alnum s.
Proof.
  remember (length s) as n eqn:Hn. revert s Hn.
  induction n as [n IH] using lt_wf_ind. intros s Hn bol.
  destruct s as [|w1 s]; [reflexivity|].
  cbn [sub_scan hyphen_scan]. rewrite match_at_hyphen.
  assert (Hrest : sub_scan (hyphen_pattern unicode_alnum) hyphen_template
                    false s 0 = hyphen_scan unicode_alnum s).
  { apply (IH (length s)); [simpl in Hn; lia|reflexivity]. }
  destruct s as [|h [|sp [|w2 s]]]; try (rewrite Hrest; reflexivity).
  destruct (hyphen_gap_here unicode_alnum (w1 :: h :: sp :: w2 :: s)) eqn:E.
  - cbn [expand hyphen_template group_text Nat.eqb app sub_scan].
    assert (Hh : h = 45).
    { unfold hyphen_gap_here in E.
      destruct (is_word unicode_alnum w1); [|discriminate].
      destruct (h =? 45) eqn:E45; [|discriminate].
      apply Z.eqb_eq, E45. }
    subst h. do 3 f_equal.
    apply (IH (length s)); [simpl in Hn; lia|reflexivity].
  - rewrite Hrest. reflexivity.
Qed.

Lemma fix_hyphenization_eq (language : string) (line : list Z) :
  fix_hyphenization unicode_alnum language line
  = Ok (hyphen_repair language (hyphen_scan unicode_alnum line)).
Proof.
  unfold fix_hyphenization, hyphen_repair.
  rewrite (re_sub_compiled _ _ hyphen_template) by reflexivity.
  rewrite sub_scan_hyphen. cbn [bind].
  destruct (String.eqb_spec language DUTCH) as [->|_]; reflexivity.
Qed.

End Hyphenation.

Section HyphenComplete.

Variable unicode_alnum : Z -> bool.

(** In the Unicode database no whitespace character is alphanumeric. *)
Hypothesis space_not_word :
  forall c : Z, is_space c = true -> is_word unicode_alnum c = false.

Lemma hyphen_scan_head (c : Z) (r : list Z) :
  exists x, hyphen_scan unicode_alnum (c :: r) = c :: x.
Proof.
  cbn [hyphen_scan]. destruct r as [|h [|sp [|w2 r]]]; eauto.
  destruct (hyphen_gap_here unicode_alnum (c :: h :: sp :: w2 :: r)); eauto.
Qed.

Lemma hyphen_scan_miss (c : Z) (r : list Z) :
  hyphen_gap_here unicode_alnum (c :: r) = false ->
  hyphen_scan unicode_alnum (c :: r) = c :: hyphen_scan unicode_alnum r.
Proof.
  intros H. cbn [hyphen_scan]. destruct r as [|h [|sp [|w2 r]]]; try reflexivity.
  rewrite H. reflexivity.
Qed.

Lemma hyphen_gap_here_cons (c : Z) (r : list Z) :
  hyphen_gap_here unicode_alnum (c :: r) = true ->
  exists sp w2 r', r = 45 :: sp :: w2 :: r'
    /\ is_word unicode_alnum c = true /\ is_space sp = true
    /\ is_word unicode_alnum w2 = true.
Proof.
  unfold hyphen_gap_here. destruct r as [|h [|sp [|w2 r']]]; try discriminate.
  intros H. apply andb_prop in H as [H Hw2]. apply andb_prop in H as [H Hsp].
  apply andb_prop in H as [Hc Hh]. apply Z.eqb_eq in Hh. subst h.
  exists sp, w2, r'. auto.
Qed.

(** The collapse creates no occurrence at a character it copies. *)
Lemma hyphen_gap_here_scan (c : Z) (r : list Z) :
  hyphen_gap_here unicode_alnum (c :: hyphen_scan unicode_alnum r) = true ->
  hyphen_gap_here unicode_alnum (c :: r) = true.
Proof.
  intros H. apply hyphen_gap_here_cons in H as (sp & w2 & x & Hr & Hc & Hsp & Hw2).
  destruct r as [|h r1]; [discriminate|].
  destruct (hyphen_scan_head h r1) as (x1 & Hx1).
  assert (h = 45) by congruence. subst h.
  rewrite hyphen_scan_miss in Hr.
  2:{ destruct r1 as [|a [|b [|d r1]]]; reflexivity. }
  destruct r1 as [|sp' r2]; [discriminate|].
  destruct (hyphen_scan_head sp' r2) as (x2 & Hx2).
  assert (sp' = sp) by congruence. subst sp'.
  rewrite hyphen_scan_miss in Hr.
  2:{ unfold hyphen_gap_here. destruct r2 as [|a [|b [|d r2]]]; try reflexivity.
      rewrite (space_not_word sp Hsp). reflexivity. }
  destruct r2 as [|w' r3]; [discriminate|].
  destruct (hyphen_scan_head w' r3) as (x3 & Hx3).
  assert (w' = w2) by congruence. subst w'.
  unfold hyphen_gap_here. rewrite Hc, Hsp, Hw2. reflexivity.
Qed.

Lemma has_overlap_tail (c : Z) (r : list Z) :
  has_overlap unicode_alnum (c :: r) = false -> has_overlap unicode_alnum r = false.
Proof. cbn [has_overlap]. intros H. apply orb_false_iff in H. apply H. Qed.

(** Where no two occurrences share a word character, the collapse leaves
    no occurrence. *)
Lemma hyphen_scan_complete (s : list Z) :
  has_overlap unicode_alnum s = false ->
  has_hyphen_gap unicode_alnum (hyphen_scan unicode_alnum s) = false.
Proof.
  remember (length s) as n eqn:Hn. revert s Hn.
  induction n as [n IH] using lt_wf_ind. intros s Hn Hov.
  destruct s as [|c rest]; [reflexivity|].
  pose proof (has_overlap_tail _ _ Hov) as Hrest.
  destruct (hyphen_gap_here unicode_alnum (c :: rest)) eqn:G.
  - destruct (hyphen_gap_here_cons _ _ G) as (sp & w2 & r' & -> & Hc & Hsp & Hw2).
    cbn [has_overlap] in Hov. rewrite G in Hov. cbn [andb drop] in Hov.
    apply orb_false_iff in Hov as [Hnext _].
    cbn [hyphen_scan]. rewrite G.
    assert (Hr' : has_overlap unicode_alnum r' = false).
    { do 3 apply has_overlap_tail in Hrest. exact Hrest. }
    assert (IHr' : has_hyphen_gap unicode_alnum (hyphen_scan unicode_alnum r')
                   = false).
    { apply (IH (length r')); [simpl in Hn; lia|reflexivity|exact Hr']. }
    cbn [has_hyphen_gap]. rewrite IHr'.
    assert (G2 : hyphen_gap_here unicode_alnum
                   (w2 :: hyphen_scan unicode_alnum r') = false).
    { destruct (hyphen_gap_here unicode_alnum (w2 :: hyphen_scan unicode_alnum r'))
        eqn:E; [|reflexivity].
      apply hyphen_gap_here_scan in E. congruence. }
    rewrite G2.
    assert (Hw2s : is_space w2 = false).
    { destruct (is_space w2) eqn:E; [|reflexivity].
      rewrite (space_not_word w2 E) in Hw2. discriminate. }
    unfold hyphen_gap_here.
    destruct (hyphen_scan unicode_alnum r') as [|a [|b x]];
      rewrite ?Hw2s, ?andb_false_r; reflexivity.
  - rewrite hyphen_scan_miss by exact G. cbn [has_hyphen_gap].
    rewrite (IH (length rest)) by (simpl in Hn; auto; lia).
    destruct (hyphen_gap_here unicode_alnum (c :: hyphen_scan unicode_alnum rest))
      eqn:E; [|reflexivity].
    apply hyphen_gap_here_scan in E. congruence.
Qed.

End HyphenComplete.

(** The table [ascii_only] meets the hypothesis on the Unicode database. *)
Lemma ascii_only_space_not_word (c : Z) :
  is_space c = true -> is_word ascii_only c = false.
Proof.
  unfold is_word, ascii_only, is_space, ascii_alnum.
  destruct (c <? 128) eqn:E; [|reflexivity].
  intros H. lia.
Qed.

Section HyphenationClaim.

Variable unicode_alnum : Z -> bool.

(** C7 (amended). [fix_hyphenization] first collapses the occurrences of
    word character, hyphen, whitespace, word character that a scan from left
    to right meets when it resumes behind the second word character of each
    occurrence it collapses: an occurrence that begins at that character
    stays, and where no two occurrences share a word character none is left.
    Then it repairs the Dutch conjunctions for Dutch only and the German ones
    for German only; the two examples of the specification hold. *)
Theorem fix_hyphenization_scan (language : string) (line : list Z) :
  fix_hyphenization unicode_alnum language line
  = Ok (hyphen_repair language (hyphen_scan unicode_alnum line))
  /\ ((forall c : Z, is_space c = true -> is_word unicode_alnum c = false) ->
      has_overlap unicode_alnum line = false ->
      has_hyphen_gap unicode_alnum (hyphen_scan unicode_alnum line) = false)
  /\ (String.eqb language DUTCH = false -> String.eqb language GERMAN = false ->
      fix_hyphenization unicode_alnum language line
      = Ok (hyphen_scan unicode_alnum line))
  /\ fix_hyphenization unicode_alnum DUTCH (str "woord-en zijn")
     = Ok (str "woord- en zijn")
  /\ fix_hyphenization unicode_alnum GERMAN (str "Wort-und Satz")
     = Ok (str "Wort- und Satz").
Proof.
  split; [apply fix_hyphenization_eq|]. split; [|split].
  - intros Htable. apply hyphen_scan_complete, Htable.
  - intros Hnl Hde. rewrite fix_hyphenization_eq. unfold hyphen_repair.
    rewrite Hnl, Hde. reflexivity.
  - split; rewrite fix_hyphenization_eq; reflexivity.
Qed.

End HyphenationClaim.

(** C7 (amended) on a line whose two occurrences share no character. *)
Lemma fix_hyphenization_scan_witness :
  has_hyphen_gap ascii_only (hyphen_scan ascii_only (str "a- b c- d")) = false.
Proof.
  destruct (fix_hyphenization_scan ascii_only ENGLISH (str "a- b c- d"))
    as (_ & Hcomplete & _).
  apply Hcomplete; [exact ascii_only_space_not_word|reflexivity].
Defined.

(** C7, as stated, fails: of two occurrences that share a word character
    only the first is collapsed. *)
Lemma fix_hyphenization_overlap :
  fix_hyphenization ascii_only ENGLISH (str "a- b- c") = Ok (str "a-b- c")
  /\ has_hyphen_gap ascii_only (str "a-b- c") = true.
Proof. split; reflexivity. Qed.

(** * The loop body of [process_file] *)

Section LoopBody.

Variable unicode_alnum : Z -> bool.

Lemma bind_ret {A : Type} (m : result A) : bind m Ok = m.
Proof. destruct m; reflexivity. Qed.

Lemma process_line_steps (language : string) (line : list Z) :
  process_line unicode_alnum language line
  = run_steps (pipeline_steps unicode_alnum language) line.
Proof.
  unfold process_line, pipeline_steps.
  cbn [app run_steps].
  destruct (remove_double_spaces line) as [l1|e]; [|reflexivity].
  cbn [bind].
  destruct (replace_common_errors language (remove_soft_hyphens l1))
    as [l3|e]; [|reflexivity].
  cbn [bind].
  destruct (fix_period_spacing unicode_alnum l3) as [l4|e]; [|reflexivity].
  cbn [bind].
  destruct (fix_hyphenization unicode_alnum language l4) as [l5|e];
    [|reflexivity].
  cbn [bind].
  destruct (replace_quotes language l5) as [l6|e]; [|reflexivity].
  cbn [bind].
  destruct (lang_in language [ENGLISH; DUTCH; GERMAN]); cbn [run_steps].
  - symmetry. apply bind_ret.
  - reflexivity.
Qed.

Lemma write_lines_app (lines : list (list Z)) :
  forall f_out : list Z,
    write_lines lines f_out = f_out ++ paragraphs lines.
Proof.
  unfold paragraphs.
  induction lines as [|line lines IH]; intros f_out; simpl.
  - rewrite app_nil_r. reflexivity.
  - rewrite IH, <- !app_assoc. reflexivity.
Qed.

(** C2. For a line that is not blank, what [process_file] writes is the
    result of the steps of the specification, in their order, followed by two
    newlines; the loop body is that composition for every line: the six
    steps common to all languages, then [normalize_apostrophes] exactly for
    English, Dutch and German. *)
Theorem process_file_line_is_pipeline (language : string) (line : list Z) :
  nonblank line = true ->
  process_line unicode_alnum language line
  = run_steps (pipeline_steps unicode_alnum language) line
  /\ process_file unicode_alnum language (Line line Eof)
     = (try out <- run_steps (pipeline_steps unicode_alnum language) line in
        Ok (out ++ [NEWLINE; NEWLINE])).
Proof.
  intros Hline. split; [apply process_line_steps|].
  unfold process_file. cbn [read_lines]. rewrite Hline.
  rewrite process_line_steps.
  destruct (run_steps (pipeline_steps unicode_alnum language) line) as [out|e];
    [|reflexivity].
  cbn [bind app]. rewrite write_lines_app. unfold paragraphs.
  cbn [List.map concat app]. rewrite app_nil_r. reflexivity.
Qed.

End LoopBody.

(** * Where the characters of the output come from *)

Section Provenance.

Variable unicode_alnum : Z -> bool.
Variable P : Z -> Prop.
Hypothesis written_P : forall c : Z, literal c = true -> P c.

Lemma literal_list (l : list Z) : forallb literal l = true -> Forall P l.
Proof.
  induction l as [|c l IH]; simpl; [constructor|].
  intros H. apply andb_prop in H as [Hc Hl].
  constructor; [apply written_P, Hc|apply IH, Hl].
Qed.

Lemma literal_template_in (tpl : list titem) :
  literal_template tpl = true -> template_in P tpl.
Proof.
  unfold literal_template, template_in.
  induction tpl as [|[c|n] tpl IH]; simpl; [constructor| |].
  - intros H. apply andb_prop in H as [Hc Hl].
    constructor; [apply written_P, Hc|apply IH, Hl].
  - intros H. constructor; [exact I|apply IH, H].
Qed.

Lemma returns_ok (out : list Z) : Forall P out -> returns_in P (Ok out).
Proof. intros H. exists out. split; [reflexivity|exact H]. Qed.

Lemma returns_bind (m : result (list Z)) (k : list Z -> result (list Z)) :
  returns_in P m ->
  (forall x, Forall P x -> returns_in P (k x)) ->
  returns_in P (bind m k).
Proof. intros (x & -> & Hx) Hk. cbn [bind]. apply Hk, Hx. Qed.

Lemma returns_if (b : bool) (m1 m2 : result (list Z)) :
  returns_in P m1 -> returns_in P m2 -> returns_in P (if b then m1 else m2).
Proof. destruct b; trivial. Qed.

Lemma returns_re_sub (r : regex) (repl : list Z) (tpl : list titem)
    (s : list Z) :
  parse_template (ngroups r) repl = Ok tpl ->
  literal_template tpl = true ->
  Forall P s -> returns_in P (re_sub r repl s).
Proof.
  intros Hp Ht Hs. rewrite (re_sub_compiled _ _ _ _ Hp).
  apply returns_ok, sub_scan_in; [apply literal_template_in, Ht|exact Hs].
Qed.

Lemma Forall_if (b : bool) (x y : list Z) :
  Forall P x -> Forall P y -> Forall P (if b then x else y).
Proof. destruct b; trivial. Qed.

(** One step of the argument: through a bind, a conditional, a compiled
    substitution, a literal replacement or a strip. *)
Ltac provenance :=
  repeat first
    [ assumption
    | apply returns_bind; [|intros ? ?]
    | apply returns_if
    | eapply returns_re_sub; [reflexivity|reflexivity|]
    | apply returns_ok
    | apply Forall_if
    | apply strip_in
    | apply str_replace_in; [apply literal_list; reflexivity|] ].

Lemma remove_soft_hyphens_in (line : list Z) :
  Forall P line -> Forall P (remove_soft_hyphens line).
Proof.
  intros H. unfold remove_soft_hyphens. cbv zeta.
  apply str_replace_in; [constructor|].
  apply str_replace_in; [constructor|exact H].
Qed.

Lemma replace_common_errors_in (language : string) (line : list Z) :
  Forall P line -> returns_in P (replace_common_errors language line).
Proof. intros H. unfold replace_common_errors. cbv zeta. provenance. Qed.

Lemma fix_period_spacing_in (line : list Z) :
  Forall P line -> returns_in P (fix_period_spacing unicode_alnum line).
Proof. intros H. unfold fix_period_spacing. provenance. Qed.

Lemma fix_hyphenization_in (language : string) (line : list Z) :
  Forall P line -> returns_in P (fix_hyphenization unicode_alnum language line).
Proof. intros H. unfold fix_hyphenization. cbv zeta. provenance. Qed.

Lemma replace_quotes_in (language : string) (line : list Z) :
  Forall P line -> returns_in P (replace_quotes language line).
Proof. intros H. unfold replace_quotes. cbv zeta. provenance. Qed.

Lemma late_steps_in (language : string) (line : list Z) :
  Forall P line -> returns_in P (late_steps unicode_alnum language line).
Proof.
  intros H. unfold late_steps.
  apply returns_bind; [apply replace_common_errors_in, H|intros l3 H3].
  apply returns_bind; [apply fix_period_spacing_in, H3|intros l4 H4].
  apply returns_bind; [apply fix_hyphenization_in, H4|intros l5 H5].
  apply replace_quotes_in, H5.
Qed.

End Provenance.

(** * [process_file] and [process_folder] *)

Section Files.

Variable unicode_alnum : Z -> bool.

(** The replacement template of [normalize_apostrophes] does not compile:
    its first escape is a backslash followed by the ASCII letter u. *)
Lemma normalize_apostrophes_raises (line : list Z) :
  normalize_apostrophes unicode_alnum line = Raise (ReError "bad escape").
Proof. reflexivity. Qed.

Lemma process_line_eq (language : string) (line : list Z) :
  process_line unicode_alnum language line
  = (try l1 <- remove_double_spaces line in
     try l6 <- late_steps unicode_alnum language (remove_soft_hyphens l1) in
     if lang_in language [ENGLISH; DUTCH; GERMAN]
     then normalize_apostrophes unicode_alnum l6 else Ok l6).
Proof.
  unfold process_line, late_steps.
  destruct (remove_double_spaces line) as [l1|e]; [|reflexivity].
  cbn [bind].
  destruct (replace_common_errors language (remove_soft_hyphens l1))
    as [l3|e]; [|reflexivity].
  cbn [bind].
  destruct (fix_period_spacing unicode_alnum l3) as [l4|e]; [|reflexivity].
  cbn [bind].
  destruct (fix_hyphenization unicode_alnum language l4) as [l5|e];
    reflexivity.
Qed.

Lemma collapse_no_newline (s : list Z) :
  forall b : bool, Forall (fun c => c <> NEWLINE) (collapse b s).
Proof.
  induction s as [|c s IH]; intros b; simpl; [constructor|].
  destruct (is_space c) eqn:E.
  - destruct b; [apply IH|]. constructor; [discriminate|apply IH].
  - constructor; [|apply IH]. intros ->. discriminate.
Qed.

Lemma str_replace_char_removed (e : Z) (s : list Z) :
  Forall (fun c => c <> e) (str_replace [e] [] s).
Proof.
  rewrite str_replace_char.
  induction s as [|c s IH]; simpl; [constructor|].
  destruct (c =? e) eqn:E; simpl; [exact IH|].
  constructor; [apply Z.eqb_neq, E|exact IH].
Qed.

Lemma remove_soft_hyphens_clean (line : list Z) :
  Forall (fun c => c <> SOFT_HYPHEN /\ c <> MIDDLE_DOT)
    (remove_soft_hyphens line).
Proof.
  unfold remove_soft_hyphens. cbv zeta.
  apply Forall_and. split.
  - apply str_replace_in; [constructor|apply str_replace_char_removed].
  - apply str_replace_char_removed.
Qed.

(** For the languages without the apostrophe step the loop body returns a
    line, and the line holds no newline. *)
Lemma process_line_returns (language : string) (line : list Z) :
  lang_in language [ENGLISH; DUTCH; GERMAN] = false ->
  returns_in (fun c => c <> NEWLINE) (process_line unicode_alnum language line).
Proof.
  intros Hlang. rewrite process_line_eq, remove_double_spaces_eq, Hlang.
  cbn [bind].
  apply returns_bind.
  - apply late_steps_in.
    + intros c Hc Hnl. subst c. discriminate.
    + apply remove_soft_hyphens_in, strip_in, collapse_no_newline.
  - intros l6 H6. exists l6. split; [reflexivity|exact H6].
Qed.

(** For English, Dutch and German it raises. *)
Lemma process_line_raises (language : string) (line : list Z) :
  lang_in language [ENGLISH; DUTCH; GERMAN] = true ->
  process_line unicode_alnum language line = Raise (ReError "bad escape").
Proof.
  intros Hlang. rewrite process_line_eq, remove_double_spaces_eq, Hlang.
  cbn [bind].
  destruct (late_steps_in unicode_alnum (fun _ => True) (fun _ _ => I) language
              (remove_soft_hyphens (strip (collapse false line))))
    as (l6 & -> & _).
  - apply Forall_forall. intros; exact I.
  - reflexivity.
Qed.

(** C10. A line that the loop body of [process_file] returns holds neither a
    soft hyphen nor a middle dot: [remove_soft_hyphens] removes them and the
    later steps write none. *)
Theorem process_line_no_soft_hyphen (language : string) (line out : list Z) :
  process_line unicode_alnum language line = Ok out ->
  ~ In SOFT_HYPHEN out /\ ~ In MIDDLE_DOT out.
Proof.
  rewrite process_line_eq, remove_double_spaces_eq. cbn [bind].
  destruct (late_steps_in unicode_alnum
              (fun c => c <> SOFT_HYPHEN /\ c <> MIDDLE_DOT)
              ltac:(intros c Hc; split; intros ->; discriminate) language
              (remove_soft_hyphens (strip (collapse false line)))
              (remove_soft_hyphens_clean _))
    as (l6 & -> & H6).
  cbn [bind].
  destruct (lang_in language [ENGLISH; DUTCH; GERMAN]).
  - rewrite normalize_apostrophes_raises. discriminate.
  - intros [= <-]. rewrite List.Forall_forall in H6.
    split; intros Hin; apply H6 in Hin; tauto.
Qed.

(** *** The file as a whole *)

Lemma read_lines_returns (language : string) (f_in : stream) :
  lang_in language [ENGLISH; DUTCH; GERMAN] = false ->
  decodable f_in = true ->
  forall acc : list (list Z),
  exists outs : list (list Z),
    read_lines unicode_alnum language f_in acc = Ok (acc ++ outs)
    /\ Forall2 (fun line out =>
                  process_line unicode_alnum language line = Ok out
                  /\ ~ In NEWLINE out)
         (List.filter nonblank (stream_lines f_in)) outs.
Proof.
  intros Hlang. induction f_in as [|line rest IH|]; intros Hdec acc.
  - exists []. split; [simpl; rewrite app_nil_r; reflexivity|constructor].
  - cbn [read_lines stream_lines List.filter]. simpl in Hdec.
    destruct (nonblank line).
    + destruct (process_line_returns language line Hlang) as (out & Hout & Hnl).
      rewrite Hout. cbn [bind].
      destruct (IH Hdec (acc ++ [out])) as (outs & Hread & Hall).
      exists (out :: outs). split.
      * rewrite Hread, <- app_assoc. reflexivity.
      * constructor; [|exact Hall]. split; [exact Hout|].
        rewrite List.Forall_forall in Hnl. intros Hin. apply (Hnl _ Hin eq_refl).
    + apply IH, Hdec.
  - discriminate.
Qed.

(** For the six languages without the apostrophe step, [process_file]
    writes, for the lines that are not blank and in their order, the line
    the loop body returns followed by two newlines, and nothing else; no
    other newline occurs in the output. *)
Theorem process_file_paragraphs (language : string) (f_in : stream) :
  lang_in language [ENGLISH; DUTCH; GERMAN] = false ->
  decodable f_in = true ->
  exists outs : list (list Z),
    process_file unicode_alnum language f_in = Ok (paragraphs outs)
    /\ Forall2 (fun line out =>
                  process_line unicode_alnum language line = Ok out
                  /\ ~ In NEWLINE out)
         (List.filter nonblank (stream_lines f_in)) outs.
Proof.
  intros Hlang Hdec.
  destruct (read_lines_returns language f_in Hlang Hdec []) as (outs & Hread & H).
  exists outs. split; [|exact H].
  unfold process_file. rewrite Hread. cbn [bind app].
  rewrite write_lines_app. reflexivity.
Qed.

(** C1 fails for English, Dutch and German: the loop body raises [re.error]
    on every line, so that [process_file] raises on the first line that is
    not blank and writes nothing. *)
Theorem process_file_raises_en_nl_de (line : list Z) :
  process_line unicode_alnum ENGLISH line = Raise (ReError "bad escape")
  /\ process_line unicode_alnum DUTCH line = Raise (ReError "bad escape")
  /\ process_line unicode_alnum GERMAN line = Raise (ReError "bad escape")
  /\ process_file unicode_alnum ENGLISH (Line (str "a" ++ [NEWLINE]) Eof)
     = Raise (ReError "bad escape").
Proof.
  split; [|split; [|split]]; try (apply process_line_raises; reflexivity).
  unfold process_file. cbn [read_lines].
  replace (nonblank (str "a" ++ [NEWLINE])) with true by reflexivity.
  rewrite process_line_raises by reflexivity. reflexivity.
Qed.

End Files.

(** * Batches and the language argument *)

Section Batches.

Variable unicode_alnum : Z -> bool.

Lemma written_other (language : string) (files : list (string * stream)) :
  forall (folder_out : gmap string (list Z)) (name : string),
    name ∉ files.*1 ->
    written unicode_alnum language files folder_out !! name = folder_out !! name.
Proof.
  induction files as [|[file_in f_in] files IH]; intros folder_out name Hname;
    [reflexivity|].
  cbn [written]. rewrite fmap_cons in Hname. cbn [fst] in Hname.
  apply not_elem_of_cons in Hname as [Hne Hname].
  destruct (process_file unicode_alnum language f_in) as [text|e].
  - rewrite IH by exact Hname. apply lookup_insert_ne. congruence.
  - apply IH, Hname.
Qed.

Lemma written_last (language : string) (before : list (string * stream)) :
  forall (folder_out : gmap string (list Z)) (name : string) (f_in : stream)
         (text : list Z) (after : list (string * stream)),
    name ∉ after.*1 ->
    process_file unicode_alnum language f_in = Ok text ->
    written unicode_alnum language (before ++ (name, f_in) :: after) folder_out
      !! name = Some text.
Proof.
  induction before as [|[file_in g] before IH];
    intros folder_out name f_in text after Hname Hok.
  - cbn [app written]. rewrite Hok, written_other by exact Hname.
    apply lookup_insert_eq.
  - cbn [app written].
    destruct (process_file unicode_alnum language g); apply IH; assumption.
Qed.

Lemma process_folder_written (language : string)
    (pre : list (string * stream)) :
  forall (tail : list (string * stream)) (folder_out : gmap string (list Z)),
    forallb (fun file => succeeds (process_file unicode_alnum language file.2))
      pre = true ->
    process_folder unicode_alnum language (pre ++ tail) folder_out
    = process_folder unicode_alnum language tail
        (written unicode_alnum language pre folder_out).
Proof.
  induction pre as [|[file_in f_in] pre IH]; intros tail folder_out Hpre;
    [reflexivity|].
  cbn [forallb snd] in Hpre. apply andb_prop in Hpre as [Hok Hpre].
  cbn [app process_folder written].
  destruct (process_file unicode_alnum language f_in) as [text|e];
    [|discriminate].
  apply IH, Hpre.
Qed.

(** C3 (amended). When [process_file] raises for a file of a batch,
    [process_folder] ends with that exception: the files listed before it
    have their output in the folder (the output of the last file of each
    name), no other name of the folder is touched, and neither the failing
    file nor any file listed after it is written. *)
Theorem process_folder_stops_at_failure (language : string)
    (pre : list (string * stream)) (file_in : string) (f_in : stream)
    (post : list (string * stream)) (folder_out : gmap string (list Z))
    (e : exn) :
  forallb (fun file => succeeds (process_file unicode_alnum language file.2))
    pre = true ->
  process_file unicode_alnum language f_in = Raise e ->
  process_folder unicode_alnum language (pre ++ (file_in, f_in) :: post)
    folder_out
  = (written unicode_alnum language pre folder_out, Raise e)
  /\ (forall name : string,
        name ∉ pre.*1 ->
        written unicode_alnum language pre folder_out !! name
        = folder_out !! name)
  /\ (forall before name g text after,
        pre = before ++ (name, g) :: after ->
        name ∉ after.*1 ->
        process_file unicode_alnum language g = Ok text ->
        written unicode_alnum language pre folder_out !! name = Some text).
Proof.
  intros Hpre Hfail. split; [|split].
  - rewrite process_folder_written by exact Hpre.
    cbn [process_folder]. rewrite Hfail. reflexivity.
  - intros name. apply written_other.
  - intros before name g text after -> Hname Hok.
    apply written_last; assumption.
Qed.

Lemma existsb_eqb_false (code : string) (codes : list string) :
  ~ In code codes -> existsb (String.eqb code) codes = false.
Proof.
  induction codes as [|c codes IH]; simpl; [reflexivity|].
  intros H. apply orb_false_iff. split.
  - apply String.eqb_neq. intros ->. apply H. left. reflexivity.
  - apply IH. intros Hin. apply H. right. exact Hin.
Qed.

(** C6. The command accepts each of the nine language codes and runs the
    function body with it; any other code is refused with the usage error
    of [click.Choice], nothing is processed, and no other language takes its
    place. *)
Theorem language_choice_closed_set (files : list (string * stream))
    (folder_out : gmap string (list Z)) :
  length LANGUAGES = 9%nat
  /\ List.NoDup LANGUAGES
  /\ Forall (fun code =>
               click_choice LANGUAGES code = Ok code
               /\ process_folder_command unicode_alnum code files folder_out
                  = process_folder unicode_alnum code files folder_out)
       LANGUAGES
  /\ (forall code : string,
        ~ In code LANGUAGES ->
        click_choice LANGUAGES code = Raise (BadParameter code)
        /\ process_folder_command unicode_alnum code files folder_out
           = (folder_out, Raise (BadParameter code))).
Proof.
  split; [reflexivity|]. split; [|split].
  - unfold LANGUAGES.
    repeat (constructor; [simpl; intuition discriminate|]). constructor.
  - repeat (constructor; [split; reflexivity|]). constructor.
  - intros code Hcode.
    assert (H : click_choice LANGUAGES code = Raise (BadParameter code)).
    { unfold click_choice. rewrite existsb_eqb_false by exact Hcode.
      reflexivity. }
    split; [exact H|]. unfold process_folder_command. rewrite H. reflexivity.
Qed.

End Batches.

(** * Lines that a rule does not concern *)

Section Untouched.

Variable Q : Z -> Prop.

Lemma many_none (p : Z -> bool) (k : mstate -> option mstate) :
  (forall st, Forall Q (m_rest st) -> k st = None) ->
  forall rest len groups,
    Forall Q rest -> many p len rest groups k = None.
Proof.
  intros Hk. induction rest as [|c rest IH]; intros len groups Hr; simpl.
  - apply Hk. exact Hr.
  - assert (Hrest : Forall Q rest) by (inversion Hr; assumption).
    destruct (p c); [rewrite IH by exact Hrest|]; apply Hk; exact Hr.
Qed.

Lemma rmatch_none (r : regex) :
  forall (st : mstate) (k : mstate -> option mstate),
    (forall st', Forall Q (m_rest st') -> k st' = None) ->
    Forall Q (m_rest st) -> rmatch r st k = None.
Proof.
  induction r as [p| | |r1 IH1 r2 IH2|r1 IH1 r2 IH2|r1 IH1|p|n r1 IH1];
    intros st k Hk Hst; simpl.
  - unfold consume. destruct (m_rest st) as [|c rest] eqn:E; [reflexivity|].
    destruct (p c); [|reflexivity]. apply Hk. simpl. inversion Hst; assumption.
  - destruct (m_bol st); [apply Hk, Hst|reflexivity].
  - destruct (m_rest st) as [|c [|d rest]] eqn:E; try reflexivity.
    + apply Hk. rewrite E. constructor.
    + destruct (c =? 10); [apply Hk; rewrite E; exact Hst|reflexivity].
  - apply IH1; [|exact Hst]. intros st' Hst'. apply IH2; assumption.
  - rewrite IH1 by assumption. apply IH2; assumption.
  - rewrite IH1 by assumption. apply Hk, Hst.
  - unfold consume. destruct (m_rest st) as [|c rest] eqn:E; [reflexivity|].
    destruct (p c); [|reflexivity]. simpl.
    apply many_none; [exact Hk|]. inversion Hst; assumption.
  - apply IH1; [|exact Hst]. intros st' Hst'. apply Hk. exact Hst'.
Qed.

Lemma requires_none (r : regex) :
  Requires Q r ->
  forall (st : mstate) (k : mstate -> option mstate),
    Forall Q (m_rest st) -> rmatch r st k = None.
Proof.
  induction 1 as [p Hp|p Hp|r1 r2 _ IH|r1 r2 _ IH|r1 r2 _ IH1 _ IH2|n r _ IH];
    intros st k Hst; simpl.
  - unfold consume. destruct (m_rest st) as [|c rest]; [reflexivity|].
    rewrite Hp by (inversion Hst; assumption). reflexivity.
  - unfold consume. destruct (m_rest st) as [|c rest]; [reflexivity|].
    rewrite Hp by (inversion Hst; assumption). reflexivity.
  - apply IH, Hst.
  - apply rmatch_none; [|exact Hst]. intros st' Hst'. apply IH, Hst'.
  - rewrite IH1 by exact Hst. apply IH2, Hst.
  - apply IH, Hst.
Qed.

Lemma match_at_requires (r : regex) (bol adv : bool) (s : list Z) :
  Requires Q r -> Forall Q s -> match_at r bol s adv = None.
Proof.
  intros Hr Hs. unfold match_at. rewrite requires_none; [reflexivity|exact Hr|exact Hs].
Qed.

(** [re.sub] returns a string in which the pattern cannot match as it is. *)
Lemma sub_scan_requires (r : regex) (tpl : list titem) (s : list Z) :
  Requires Q r -> Forall Q s ->
  forall bol : bool, sub_scan r tpl bol s 0 = s.
Proof.
  intros Hr. induction s as [|c s IH]; intros Hs bol; cbn [sub_scan].
  - rewrite match_at_requires by assumption. reflexivity.
  - rewrite match_at_requires by assumption. f_equal.
    apply IH. inversion Hs; assumption.
Qed.

(** [str.replace] returns a string without the first character of [old] as
    it is. *)
Lemma str_replace_absent (o : Z) (old new s : list Z) :
  (forall c, Q c -> c <> o) -> Forall Q s ->
  str_replace (o :: old) new s = s.
Proof.
  intros Ho. unfold str_replace. induction 1 as [|c s Hc Hs IH]; [reflexivity|].
  cbn [replace_scan starts_with].
  replace (c =? o) with false by (symmetry; apply Z.eqb_neq, Ho, Hc).
  cbn [andb]. f_equal. exact IH.
Qed.

End Untouched.

(** * [remove_soft_hyphens] *)

Section SoftHyphens.

Lemma flat_map_drop (e : Z) (s : list Z) :
  flat_map (fun c => if c =? e then [] else [c]) s
  = List.filter (fun c => negb (c =? e)) s.
Proof.
  induction s as [|c s IH]; simpl; [reflexivity|].
  destruct (c =? e); simpl; rewrite IH; reflexivity.
Qed.

Lemma filter_filter (f g : Z -> bool) (s : list Z) :
  List.filter g (List.filter f s) = List.filter (fun c => f c && g c) s.
Proof.
  induction s as [|c s IH]; simpl; [reflexivity|].
  destruct (f c); simpl; [destruct (g c)|]; rewrite IH; reflexivity.
Qed.

(** X2. [remove_soft_hyphens] deletes the soft hyphens and the middle dots
    and nothing else: the result is the line without these two characters,
    the others in their order. *)
Theorem remove_soft_hyphens_filter (line : list Z) :
  remove_soft_hyphens line
  = List.filter (fun c => negb (c =? SOFT_HYPHEN) && negb (c =? MIDDLE_DOT)) line.
Proof.
  unfold remove_soft_hyphens. cbv zeta.
  rewrite !str_replace_char, !flat_map_drop. apply filter_filter.
Qed.

End SoftHyphens.

(** * [remove_double_spaces] and the words of a line *)

Section Words.

Lemma chunks_cons (c : Z) (rest : list Z) :
  chunks (c :: rest)
  = if is_space c then ([], words rest)
    else (c :: (chunks rest).1, (chunks rest).2).
Proof.
  unfold words. cbn [chunks]. destruct (chunks rest) as [w ws].
  destruct (is_space c); reflexivity.
Qed.

Lemma words_cons (c : Z) (rest : list Z) :
  words (c :: rest)
  = if is_space c then words rest
    else (c :: (chunks rest).1) :: (chunks rest).2.
Proof.
  unfold words at 1. rewrite chunks_cons.
  destruct (is_space c); reflexivity.
Qed.

(** Collapsing the whitespace keeps the words. *)
Lemma chunks_collapse (s : list Z) :
  chunks (collapse false s) = chunks s
  /\ words (collapse true s) = words s.
Proof.
  induction s as [|c s [IH1 IH2]]; [split; reflexivity|].
  cbn [collapse]. destruct (is_space c) eqn:E.
  - split.
    + rewrite !chunks_cons, E. replace (is_space 32) with true by reflexivity.
      rewrite IH2. reflexivity.
    + rewrite IH2, words_cons, E. reflexivity.
  - split.
    + rewrite !chunks_cons, E, IH1. reflexivity.
    + rewrite !words_cons, E, IH1. reflexivity.
Qed.

Lemma words_collapse (s : list Z) : words (collapse false s) = words s.
Proof. unfold words. rewrite (proj1 (chunks_collapse s)). reflexivity. Qed.

Lemma chunks_spaces (post : list Z) :
  forallb is_space post = true -> chunks post = ([], []).
Proof.
  induction post as [|c post IH]; [reflexivity|].
  cbn [forallb]. intros H. apply andb_prop in H as [Hc Hp].
  rewrite chunks_cons, Hc. unfold words. rewrite IH by exact Hp. reflexivity.
Qed.

Lemma chunks_app_spaces (s post : list Z) :
  forallb is_space post = true -> chunks (s ++ post) = chunks s.
Proof.
  intros Hp. induction s as [|c s IH]; [apply chunks_spaces, Hp|].
  cbn [app]. rewrite !chunks_cons. unfold words. rewrite IH. reflexivity.
Qed.

Lemma words_app_spaces (s post : list Z) :
  forallb is_space post = true -> words (s ++ post) = words s.
Proof. intros Hp. unfold words. rewrite chunks_app_spaces by exact Hp. reflexivity. Qed.

Lemma words_spaces_app (pre s : list Z) :
  forallb is_space pre = true -> words (pre ++ s) = words s.
Proof.
  induction pre as [|c pre IH]; [reflexivity|].
  cbn [forallb app]. intros H. apply andb_prop in H as [Hc Hp].
  rewrite words_cons, Hc. apply IH, Hp.
Qed.

(** What [lstrip] drops is whitespace. *)
Lemma lstrip_split (s : list Z) :
  exists pre, s = pre ++ lstrip s /\ forallb is_space pre = true.
Proof.
  induction s as [|c s (pre & IH & Hpre)]; simpl.
  - exists []. split; reflexivity.
  - destruct (is_space c) eqn:E.
    + exists (c :: pre). split; [simpl; f_equal; exact IH|].
      simpl. rewrite E. exact Hpre.
    + exists []. split; reflexivity.
Qed.

Lemma forallb_rev (p : Z -> bool) (s : list Z) :
  forallb p s = true -> forallb p (rev s) = true.
Proof.
  rewrite !forallb_forall. intros H c Hc. apply H, in_rev, Hc.
Qed.

Lemma strip_split (s : list Z) :
  exists pre post,
    s = pre ++ strip s ++ post
    /\ forallb is_space pre = true /\ forallb is_space post = true.
Proof.
  destruct (lstrip_split s) as (pre & Hs & Hpre).
  destruct (lstrip_split (rev (lstrip s))) as (q & Hr & Hq).
  exists pre, (rev q). split; [|split; [exact Hpre|apply forallb_rev, Hq]].
  rewrite Hs at 1. f_equal. unfold strip.
  rewrite <- rev_app_distr, <- Hr, rev_involutive. reflexivity.
Qed.

Lemma words_strip (s : list Z) : words (strip s) = words s.
Proof.
  destruct (strip_split s) as (pre & post & Hs & Hpre & Hpost).
  rewrite Hs at 2.
  rewrite words_spaces_app by exact Hpre.
  rewrite words_app_spaces by exact Hpost. reflexivity.
Qed.

Lemma no_lead_app (a b : list Z) : a <> [] -> no_lead (a ++ b) -> no_lead a.
Proof. destruct a; [congruence|trivial]. Qed.

Lemma ends_clean_rev (s : list Z) : no_lead (rev s) -> ends_clean s = true.
Proof.
  induction s as [|c s IH]; [reflexivity|].
  cbn [rev ends_clean]. destruct s as [|d s].
  - simpl. intros ->. reflexivity.
  - intros H. apply IH. apply (no_lead_app _ [c]); [|exact H].
    simpl. intros E. apply app_eq_nil in E as [_ E]. discriminate.
Qed.

Lemma ends_clean_strip (s : list Z) : ends_clean (strip s) = true.
Proof.
  apply ends_clean_rev. unfold strip. rewrite rev_involutive.
  apply no_lead_lstrip.
Qed.

Lemma no_lead_strip (s : list Z) : no_lead (strip s).
Proof.
  destruct (strip_prefix s) as [post Hpost].
  destruct (strip s) as [|c t] eqn:E; [exact I|].
  pose proof (no_lead_lstrip s) as H. rewrite Hpost in H. exact H.
Qed.

(** A tidy string that does not end with whitespace is its head word
    followed by its other words, each behind one space. *)
Lemma tidy_chunks (s : list Z) :
  forall b : bool,
    tidy b s = true -> ends_clean s = true ->
    s = (chunks s).1 ++ spaced (chunks s).2.
Proof.
  induction s as [|c s IH]; intros b Ht He; [reflexivity|].
  rewrite chunks_cons. cbn [tidy] in Ht. cbn [ends_clean] in He.
  destruct (is_space c) eqn:E.
  - apply andb_prop in Ht as [Ht Hs]. apply andb_prop in Ht as [Hc _].
    apply Z.eqb_eq in Hc. subst c.
    destruct s as [|d s]; [discriminate|].
    specialize (IH true Hs He).
    assert (Hd : is_space d = false).
    { cbn [tidy] in Hs. destruct (is_space d); [|reflexivity].
      rewrite andb_false_r in Hs. discriminate. }
    unfold words. rewrite chunks_cons, Hd in *. cbn [fst snd] in *.
    cbn [app spaced flat_map]. f_equal. exact IH.
  - cbn [fst snd app]. f_equal.
    destruct s as [|d s]; [reflexivity|].
    apply (IH false Ht He).
Qed.

Lemma join_tidy (s : list Z) :
  tidy false s = true -> ends_clean s = true -> no_lead s ->
  join_words (words s) = s.
Proof.
  intros Ht He Hl. pose proof (tidy_chunks s false Ht He) as H.
  unfold words. destruct (chunks s) as [w ws]. cbn [fst snd] in H.
  destruct w as [|c w].
  - destruct ws as [|v ws]; [exact (eq_sym H)|].
    rewrite H in Hl. cbn in Hl. discriminate.
  - rewrite H. reflexivity.
Qed.

Lemma strip_collapse_words (line : list Z) :
  strip (collapse false line) = join_words (words line).
Proof.
  rewrite <- (words_collapse line), <- (words_strip (collapse false line)).
  symmetry. apply join_tidy.
  - apply tidy_strip, tidy_collapse.
  - apply ends_clean_strip.
  - apply no_lead_strip.
Qed.

(** X3. [remove_double_spaces] returns the words of the line joined by
    single spaces, whatever whitespace stood between and around them; the
    result is empty exactly for a blank line. *)
Theorem remove_double_spaces_words (line : list Z) :
  remove_double_spaces line = Ok (join_words (words line))
  /\ (join_words (words line) = [] <-> nonblank line = false).
Proof.
  split; [rewrite remove_double_spaces_eq, strip_collapse_words; reflexivity|].
  unfold nonblank. rewrite <- (words_strip line).
  pose proof (no_lead_strip line) as Hl.
  destruct (strip line) as [|c t]; [split; reflexivity|].
  simpl in Hl. rewrite words_cons, Hl. cbn [join_words app].
  split; discriminate.
Qed.

End Words.

(** * Rules that change whitespace only *)

Section Ink.

Variable unicode_alnum : Z -> bool.

Lemma ink_app (a b : list Z) : ink (a ++ b) = ink a ++ ink b.
Proof. unfold ink. apply List.filter_app. Qed.

Lemma ink_lstrip (s : list Z) : ink (lstrip s) = ink s.
Proof.
  induction s as [|c s IH]; [reflexivity|].
  cbn [lstrip]. destruct (is_space c) eqn:E; [|reflexivity].
  rewrite IH. unfold ink. simpl. rewrite E. reflexivity.
Qed.

Lemma ink_rev (s : list Z) : ink (rev s) = rev (ink s).
Proof.
  induction s as [|c s IH]; [reflexivity|].
  cbn [rev]. rewrite ink_app, IH. unfold ink. simpl.
  destruct (is_space c); simpl; [rewrite app_nil_r|]; reflexivity.
Qed.

Lemma ink_strip (s : list Z) : ink (strip s) = ink s.
Proof.
  unfold strip. rewrite ink_rev, ink_lstrip, ink_rev, rev_involutive.
  apply ink_lstrip.
Qed.

(** A substitution each match of which writes the ink it read keeps the
    ink of the string. *)
Lemma sub_scan_ink (r : regex) (tpl : list titem) :
  (forall bol s adv n g,
      match_at r bol s adv = Some (n, g) ->
      (1 <= n <= length s)%nat /\ ink (expand tpl g) = ink (take n s)) ->
  forall (s : list Z) (bol : bool), ink (sub_scan r tpl bol s 0) = ink s.
Proof.
  intros Hm s. remember (length s) as m eqn:Hlen. revert s Hlen.
  induction m as [m IH] using lt_wf_ind. intros s Hlen bol.
  destruct s as [|c s].
  - cbn [sub_scan]. destruct (match_at r bol [] false) as [[n g]|] eqn:E;
      [|reflexivity].
    apply Hm in E as [E _]. simpl in E. lia.
  - cbn [sub_scan]. destruct (match_at r bol (c :: s) false) as [[n g]|] eqn:E.
    + apply Hm in E as [Hn Hink]. simpl in Hn.
      destruct n as [|n]; [lia|].
      rewrite ink_app, Hink.
      assert (Hs : ink (c :: s)
                   = ink (take (S n) (c :: s)) ++ ink (drop (S n) (c :: s)))
        by (rewrite <- ink_app, take_drop; reflexivity).
      rewrite Hs. f_equal.
      cbn [drop]. destruct n as [|k].
      * rewrite drop_0. apply (IH (length s)); [simpl in Hlen; lia|reflexivity].
      * rewrite sub_scan_skip by lia.
        apply (IH (length (drop (S k) s))); [|reflexivity].
        rewrite length_drop. simpl in Hlen. lia.
    + change (c :: sub_scan r tpl false s 0) with ([c] ++ sub_scan r tpl false s 0).
      change (c :: s) with ([c] ++ s). rewrite !ink_app. f_equal.
      apply (IH (length s)); [simpl in Hlen; lia|reflexivity].
Qed.

Lemma match_at_period_ink (bol adv : bool) (s : list Z) (n : nat)
    (g : list (nat * list Z)) :
  match_at (period_pattern unicode_alnum) bol s adv = Some (n, g) ->
  (1 <= n <= length s)%nat
  /\ ink (expand period_template g) = ink (take n s).
Proof.
  unfold match_at, period_pattern, Chr, chr_eq.
  destruct s as [|w1 [|a [|b [|c s]]]]; cbn; unfold consume; cbn;
    repeat match goal with
      | |- context [if ?x then _ else _] => destruct x eqn:?; cbn
      end; rewrite ?accept_S; try discriminate;
    intros [= <- <-]; (split; [simpl; lia|]);
    repeat match goal with
      | H : (_ =? _) = true |- _ => apply Z.eqb_eq in H; subst
      end;
    try (exfalso;
         match goal with
         | H : is_space 46 = true |- _ => vm_compute in H; discriminate H
         end);
    unfold ink;
    cbn [expand period_template group_text Nat.eqb app take List.filter];
    replace (is_space 46) with false by reflexivity;
    replace (is_space 32) with true by reflexivity;
    repeat match goal with
      | H : is_space ?x = _ |- context [is_space ?x] => rewrite H
      end; cbn [negb]; rewrite ?app_nil_r; reflexivity.
Qed.

Lemma starts_with_take (old s : list Z) :
  starts_with old s = true -> take (length old) s = old.
Proof.
  revert s. induction old as [|o old IH]; intros s; [reflexivity|].
  destruct s as [|c s]; [discriminate|].
  cbn [starts_with length take]. intros H. apply andb_prop in H as [Hc Hs].
  apply Z.eqb_eq in Hc. subst c. f_equal. apply IH, Hs.
Qed.

Lemma starts_with_length (old s : list Z) :
  starts_with old s = true -> (length old <= length s)%nat.
Proof.
  revert s. induction old as [|o old IH]; intros s; [simpl; lia|].
  destruct s as [|c s]; [discriminate|].
  cbn [starts_with length]. intros H. apply andb_prop in H as [_ Hs].
  apply IH in Hs. lia.
Qed.

(** A literal replacement whose two texts have the same ink keeps the ink
    of the string. *)
Lemma str_replace_ink (o : Z) (old new : list Z) :
  ink new = ink (o :: old) ->
  forall s : list Z, ink (str_replace (o :: old) new s) = ink s.
Proof.
  intros Hink s. unfold str_replace.
  remember (length s) as m eqn:Hlen. revert s Hlen.
  induction m as [m IH] using lt_wf_ind. intros s Hlen.
  destruct s as [|c s]; [reflexivity|].
  cbn [replace_scan]. destruct (starts_with (o :: old) (c :: s)) eqn:E.
  - pose proof (starts_with_take _ _ E) as Ht.
    pose proof (starts_with_length _ _ E) as Hl.
    cbn [length] in Ht, Hl |- *.
    remember (length old) as k eqn:Hk. clear Hk.
    assert (Hs : ink (c :: s)
                 = ink (take (S k) (c :: s)) ++ ink (drop (S k) (c :: s)))
      by (rewrite <- ink_app, take_drop; reflexivity).
    rewrite ink_app, Hink, Hs, Ht. f_equal. cbn [drop].
    destruct k as [|k].
    + rewrite drop_0. apply (IH (length s)); [simpl in Hlen; lia|reflexivity].
    + rewrite replace_scan_skip by lia.
      apply (IH (length (drop (S k) s))); [|reflexivity].
      rewrite length_drop. simpl in Hlen. lia.
  - change (c :: replace_scan (o :: old) new s 0)
      with ([c] ++ replace_scan (o :: old) new s 0).
    change (c :: s) with ([c] ++ s). rewrite !ink_app. f_equal.
    apply (IH (length s)); [simpl in Hlen; lia|reflexivity].
Qed.

Lemma ink_hyphen_scan (s : list Z) :
  ink (hyphen_scan unicode_alnum s) = ink s.
Proof.
  remember (length s) as m eqn:Hlen. revert s Hlen.
  induction m as [m IH] using lt_wf_ind. intros s Hlen.
  destruct s as [|w1 s]; [reflexivity|].
  assert (Hrest : ink (w1 :: hyphen_scan unicode_alnum s) = ink (w1 :: s)).
  { change (ink ([w1] ++ hyphen_scan unicode_alnum s) = ink ([w1] ++ s)).
    rewrite !ink_app. f_equal.
    apply (IH (length s)); [simpl in Hlen; lia|reflexivity]. }
  cbn [hyphen_scan]. destruct s as [|h [|sp [|w2 s]]]; try exact Hrest.
  destruct (hyphen_gap_here unicode_alnum (w1 :: h :: sp :: w2 :: s)) eqn:E;
    [|exact Hrest].
  assert (Hsp : is_space sp = true).
  { unfold hyphen_gap_here in E. apply andb_prop in E as [E _].
    apply andb_prop in E as [_ E]. exact E. }
  change (ink ([w1; h] ++ [w2] ++ hyphen_scan unicode_alnum s)
          = ink ([w1; h] ++ [sp] ++ [w2] ++ s)).
  rewrite !ink_app. f_equal.
  replace (ink [sp]) with (@nil Z) by (unfold ink; simpl; rewrite Hsp; reflexivity).
  cbn [app]. f_equal.
  apply (IH (length s)); [simpl in Hlen; lia|reflexivity].
Qed.

(** X4. [fix_period_spacing] and [fix_hyphenization] change whitespace
    only: each returns a line that has the characters other than whitespace
    of its argument, in the same order. *)
Theorem spacing_rules_keep_ink (language : string) (line : list Z) :
  (exists out : list Z,
      fix_period_spacing unicode_alnum line = Ok out /\ ink out = ink line)
  /\ (exists out : list Z,
        fix_hyphenization unicode_alnum language line = Ok out
        /\ ink out = ink line).
Proof.
  split.
  - unfold fix_period_spacing.
    rewrite (re_sub_compiled _ _ period_template) by reflexivity.
    cbn [bind]. eexists. split; [reflexivity|].
    rewrite ink_strip. apply sub_scan_ink. intros bol s adv n g.
    apply match_at_period_ink.
  - rewrite fix_hyphenization_eq. eexists. split; [reflexivity|].
    unfold hyphen_repair.
    change (str "-en ") with (45 :: str "en ").
    change (str "-of ") with (45 :: str "of ").
    change (str "-und ") with (45 :: str "und ").
    change (str "-oder ") with (45 :: str "oder ").
    destruct (String.eqb language DUTCH); [|destruct (String.eqb language GERMAN)];
      rewrite ?str_replace_ink by reflexivity; apply ink_hyphen_scan.
Qed.

End Ink.

(** * [replace_common_errors]: dashes and ellipsis *)

Section Dashes.

(** The substitution of a dash leaves none of that dash. *)
Lemma sub_scan_dash_removed (dash : Z) (s : list Z) :
  is_space dash = false -> dash <> 32 -> dash <> 45 ->
  forall bol : bool,
    Forall (fun c => c <> dash)
      (sub_scan (dash_pattern dash) dash_template bol s 0).
Proof.
  intros Hd H32 H45.
  remember (length s) as m eqn:Hlen. revert s Hlen.
  induction m as [m IH] using lt_wf_ind. intros s Hlen bol.
  destruct s as [|c s].
  - cbn [sub_scan]. rewrite match_at_dash by exact Hd. constructor.
  - cbn [sub_scan]. rewrite match_at_dash by exact Hd.
    destruct (dash_match_len dash (c :: s)) as [n|] eqn:E; cbn [option_map].
    + pose proof (dash_match_len_bound _ _ _ E) as Hn. simpl in Hn.
      destruct n as [|n]; [lia|].
      cbn [expand dash_template app].
      repeat (constructor; [congruence|]).
      destruct n as [|k].
      * apply (IH (length s)); [simpl in Hlen; lia|reflexivity].
      * rewrite sub_scan_skip by lia.
        apply (IH (length (drop (S k) s))); [|reflexivity].
        rewrite length_drop. simpl in Hlen. lia.
    + constructor.
      * unfold dash_match_len in E. intros ->. rewrite Hd, Z.eqb_refl in E.
        discriminate.
      * apply (IH (length s)); [simpl in Hlen; lia|reflexivity].
Qed.

Lemma str_replace_char_gone (e : Z) (new s : list Z) :
  Forall (fun c => c <> e) new ->
  Forall (fun c => c <> e) (str_replace [e] new s).
Proof.
  intros Hnew. rewrite str_replace_char.
  induction s as [|c s IH]; cbn [flat_map]; [constructor|].
  apply Forall_app. split; [|exact IH].
  destruct (c =? e) eqn:E; [exact Hnew|].
  constructor; [apply Z.eqb_neq, E|constructor].
Qed.

Lemma str_replace_two_absent (x y : Z) (new s : list Z) :
  Forall (fun c => c <> y) s -> str_replace [x; y] new s = s.
Proof.
  unfold str_replace. induction 1 as [|c s Hc Hs IH]; [reflexivity|].
  destruct s as [|d s]; [apply replace_scan_one|].
  rewrite replace_scan_two.
  replace (d =? y) with false
    by (symmetry; apply Z.eqb_neq; inversion Hs; assumption).
  rewrite andb_false_r. f_equal. exact IH.
Qed.

Lemma dashes_ellipsis_clean (line : list Z) :
  Forall (fun c => is_dash_or_ellipsis c = false) (dashes_ellipsis line).
Proof.
  assert (H : Forall (fun c => (c <> FIGURE_DASH /\ c <> EN_DASH)
                               /\ c <> EM_DASH /\ c <> ELLIPSIS)
                (dashes_ellipsis line)).
  { unfold dashes_ellipsis. apply Forall_and. split; [apply Forall_and; split|].
    - apply str_replace_in; [repeat constructor; discriminate|].
      apply sub_scan_in; [repeat constructor; discriminate|].
      apply sub_scan_in; [repeat constructor; discriminate|].
      apply sub_scan_dash_removed; [reflexivity|discriminate|discriminate].
    - apply str_replace_in; [repeat constructor; discriminate|].
      apply sub_scan_in; [repeat constructor; discriminate|].
      apply sub_scan_dash_removed; [reflexivity|discriminate|discriminate].
    - apply Forall_and. split.
      + apply str_replace_in; [repeat constructor; discriminate|].
        apply sub_scan_dash_removed; [reflexivity|discriminate|discriminate].
      + apply str_replace_char_gone. repeat constructor; discriminate. }
  eapply Forall_impl; [exact H|]. intros c [[H1 H2] [H3 H4]].
  unfold is_dash_or_ellipsis.
  apply Z.eqb_neq in H1, H2, H3, H4. rewrite H1, H2, H3, H4. reflexivity.
Qed.

Lemma replace_common_errors_clean (language : string) (line : list Z) :
  returns_in (fun c => is_dash_or_ellipsis c = false)
    (replace_common_errors language line).
Proof.
  rewrite replace_common_errors_eq. eexists. split; [reflexivity|].
  destruct (String.eqb language ITALIAN); [|apply dashes_ellipsis_clean].
  apply str_replace_in; [|apply dashes_ellipsis_clean].
  constructor; [reflexivity|constructor].
Qed.

(** X5. After [replace_common_errors] no figure dash, en dash, em dash or
    ellipsis character is left, whatever the language and the line. *)
Theorem replace_common_errors_no_dashes (language : string) (line : list Z) :
  exists out : list Z,
    replace_common_errors language line = Ok out
    /\ Forall (fun c => is_dash_or_ellipsis c = false) out.
Proof. apply replace_common_errors_clean. Qed.

End Dashes.

(** * [replace_quotes]: the quotation marks that are made straight *)

(** One step through a bind, a conditional, a compiled substitution, a
    literal replacement or a strip, for a property [HP] of the characters the
    program writes. *)
Ltac provenance_with HP :=
  repeat first
    [ assumption
    | apply returns_bind; [|intros ? ?]
    | apply returns_if
    | eapply (returns_re_sub _ HP); [reflexivity|reflexivity|]
    | apply returns_ok
    | apply Forall_if
    | apply strip_in
    | apply str_replace_in; [apply (literal_list _ HP); reflexivity|] ].

Section QuoteMarks.

(** The replacements of a list of characters, one after the other, by texts
    that hold none of them, leave none of them. *)
Lemma str_replace_chars_gone (marks : list Z) (new : Z -> list Z) :
  (forall m c, In m marks -> In c (new m) -> existsb (Z.eqb c) marks = false) ->
  forall (done : list Z) (s : list Z),
    Forall (fun c => existsb (Z.eqb c) done = false) s ->
    (forall m c, In m marks -> In c (new m) -> existsb (Z.eqb c) done = false) ->
    Forall (fun c => existsb (Z.eqb c) (done ++ marks) = false)
      (fold_left (fun s m => str_replace [m] (new m) s) marks s).
Proof.
  induction marks as [|m marks IH]; intros Hnew done s Hs Hdone.
  - rewrite app_nil_r. exact Hs.
  - cbn [fold_left].
    replace (done ++ m :: marks) with ((done ++ [m]) ++ marks)
      by (rewrite <- app_assoc; reflexivity).
    apply IH.
    + intros m' c Hm Hc.
      specialize (Hnew m' c (or_intror Hm) Hc).
      cbn [existsb] in Hnew. apply orb_false_iff in Hnew. tauto.
    + assert (H1 : Forall (fun c => existsb (Z.eqb c) done = false)
                     (str_replace [m] (new m) s)).
      { apply str_replace_in; [|exact Hs].
        apply List.Forall_forall. intros c Hc.
        apply (Hdone m c); [left; reflexivity|exact Hc]. }
      assert (H2 : Forall (fun c => c <> m) (str_replace [m] (new m) s)).
      { apply str_replace_char_gone.
        apply List.Forall_forall. intros c Hc ->.
        specialize (Hnew m m (or_introl eq_refl) Hc).
        cbn [existsb] in Hnew. rewrite Z.eqb_refl in Hnew. discriminate. }
      assert (H : Forall (fun c => existsb (Z.eqb c) done = false /\ c <> m)
                    (str_replace [m] (new m) s))
        by (apply Forall_and; split; assumption).
      eapply Forall_impl; [exact H|]. intros c [Hd Hm].
      rewrite existsb_app, Hd. cbn [existsb orb].
      apply Z.eqb_neq in Hm. rewrite Hm. reflexivity.
    + intros m' c Hm Hc. rewrite existsb_app.
      rewrite (Hdone m' c (or_intror Hm) Hc). cbn [existsb orb].
      specialize (Hnew m' c (or_intror Hm) Hc).
      cbn [existsb] in Hnew. apply orb_false_iff in Hnew.
      rewrite (proj1 Hnew). reflexivity.
Qed.

Lemma literal_not_angle (c : Z) : literal c = true -> is_angle_quote c = false.
Proof.
  unfold literal, written_chars. cbn [existsb app str].
  intros H. repeat (apply orb_prop in H as [H|H];
                    [apply Z.eqb_eq in H; subst c; reflexivity|]).
  discriminate.
Qed.

Lemma literal_not_curly (c : Z) : literal c = true -> is_curly_quote c = false.
Proof.
  unfold literal, written_chars. cbn [existsb app str].
  intros H. repeat (apply orb_prop in H as [H|H];
                    [apply Z.eqb_eq in H; subst c; reflexivity|]).
  discriminate.
Qed.

Lemma replace_quotes_angle (language : string) (line : list Z) :
  lang_in language [GERMAN; CATALAN] = true ->
  returns_in (fun c => is_angle_quote c = false) (replace_quotes language line).
Proof.
  intros Hlang. unfold replace_quotes. cbv zeta. rewrite Hlang.
  pose (new := fun m : Z =>
                 if (m =? LEFT_GUILLEMET) || (m =? RIGHT_GUILLEMET)
                 then [QUOTE] else [APOSTROPHE]).
  pose proof (str_replace_chars_gone
                [LEFT_GUILLEMET; RIGHT_GUILLEMET; LEFT_SINGLE_GUILLEMET;
                 RIGHT_SINGLE_GUILLEMET; 60; 62] new) as H.
  specialize (H ltac:(intros m c Hm Hc; cbn [In] in Hm;
                      repeat (destruct Hm as [<-|Hm];
                              [destruct Hc as [<-|[]]; reflexivity|]);
                      destruct Hm) [] line).
  specialize (H ltac:(apply List.Forall_forall; reflexivity)
                ltac:(reflexivity)).
  cbn [fold_left app] in H. fold (is_angle_quote) in H.
  change (new LEFT_GUILLEMET) with [QUOTE] in H.
  change (new RIGHT_GUILLEMET) with [QUOTE] in H.
  change (new LEFT_SINGLE_GUILLEMET) with [APOSTROPHE] in H.
  change (new RIGHT_SINGLE_GUILLEMET) with [APOSTROPHE] in H.
  change (new 60) with [APOSTROPHE] in H.
  change (new 62) with [APOSTROPHE] in H.
  change (str "<") with [60]. change (str ">") with [62].
  clear new.
  match type of H with Forall _ ?l => set (l1 := l) in * end.
  provenance_with literal_not_angle.
Qed.

Lemma replace_quotes_curly (language : string) (line : list Z) :
  lang_in language [DUTCH; FRENCH; CATALAN; SWEDISH] = true ->
  returns_in (fun c => is_curly_quote c = false) (replace_quotes language line).
Proof.
  intros Hlang. unfold replace_quotes. cbv zeta. rewrite Hlang.
  match goal with
  | |- context [str_replace [LEFT_DOUBLE_QUOTE] [QUOTE] ?l] => set (l0 := l)
  end.
  pose (new := fun m : Z =>
                 if (m =? LEFT_DOUBLE_QUOTE) || (m =? RIGHT_DOUBLE_QUOTE)
                 then [QUOTE] else [APOSTROPHE]).
  pose proof (str_replace_chars_gone
                [LEFT_DOUBLE_QUOTE; RIGHT_DOUBLE_QUOTE; LEFT_SINGLE_QUOTE;
                 RIGHT_SINGLE_QUOTE] new) as H.
  specialize (H ltac:(intros m c Hm Hc; cbn [In] in Hm;
                      repeat (destruct Hm as [<-|Hm];
                              [destruct Hc as [<-|[]]; reflexivity|]);
                      destruct Hm) [] l0).
  specialize (H ltac:(apply List.Forall_forall; reflexivity)
                ltac:(reflexivity)).
  cbn [fold_left app] in H. fold (is_curly_quote) in H.
  change (new LEFT_DOUBLE_QUOTE) with [QUOTE] in H.
  change (new RIGHT_DOUBLE_QUOTE) with [QUOTE] in H.
  change (new LEFT_SINGLE_QUOTE) with [APOSTROPHE] in H.
  change (new RIGHT_SINGLE_QUOTE) with [APOSTROPHE] in H.
  clear new.
  match type of H with Forall _ ?l => set (l2 := l) in * end.
  provenance_with literal_not_curly.
Qed.

(** X6. [replace_quotes] returns, for German and Catalan, a line without
    guillemets, single guillemets and angle brackets, and for Dutch, French,
    Catalan and Swedish a line without curly quotation marks: the literal
    replacements remove them and the substitutions that follow write none. *)
Theorem replace_quotes_straightens (line : list Z) :
  Forall (fun language =>
            exists out : list Z,
              replace_quotes language line = Ok out
              /\ Forall (fun c => is_angle_quote c = false) out)
    [GERMAN; CATALAN]
  /\ Forall (fun language =>
               exists out : list Z,
                 replace_quotes language line = Ok out
                 /\ Forall (fun c => is_curly_quote c = false) out)
       [DUTCH; FRENCH; CATALAN; SWEDISH].
Proof.
  split.
  - repeat (constructor; [apply replace_quotes_angle; reflexivity|]).
    constructor.
  - repeat (constructor; [apply replace_quotes_curly; reflexivity|]).
    constructor.
Qed.

End QuoteMarks.

(** * [replace_quotes]: German and Swedish *)

Section Translation.

Lemma str_replace_char_map (m n : Z) (s : list Z) :
  str_replace [m] [n] s = List.map (fun c => if c =? m then n else c) s.
Proof.
  rewrite str_replace_char.
  induction s as [|c s IH]; cbn [flat_map List.map]; [reflexivity|].
  rewrite IH. destruct (c =? m); reflexivity.
Qed.

Ltac by_cases c :=
  repeat match goal with
    | |- context [c =? ?m] =>
        let E := fresh "E" in
        destruct (c =? m) eqn:E;
        [apply Z.eqb_eq in E; subst c; reflexivity|]
    end.

Lemma straight_angle_steps (line : list Z) :
  str_replace (str ">") [APOSTROPHE]
    (str_replace (str "<") [APOSTROPHE]
       (str_replace [RIGHT_SINGLE_GUILLEMET] [APOSTROPHE]
          (str_replace [LEFT_SINGLE_GUILLEMET] [APOSTROPHE]
             (str_replace [RIGHT_GUILLEMET] [QUOTE]
                (str_replace [LEFT_GUILLEMET] [QUOTE] line)))))
  = List.map straight_angle line.
Proof.
  change (str ">") with [62]. change (str "<") with [60].
  rewrite !str_replace_char_map, !List.map_map.
  apply List.map_ext. intros c. unfold straight_angle.
  by_cases c. reflexivity.
Qed.

Lemma straight_curly_steps (line : list Z) :
  str_replace [RIGHT_SINGLE_QUOTE] [APOSTROPHE]
    (str_replace [LEFT_SINGLE_QUOTE] [APOSTROPHE]
       (str_replace [RIGHT_DOUBLE_QUOTE] [QUOTE]
          (str_replace [LEFT_DOUBLE_QUOTE] [QUOTE] line)))
  = List.map straight_curly line.
Proof.
  rewrite !str_replace_char_map, !List.map_map.
  apply List.map_ext. intros c. unfold straight_curly.
  by_cases c. reflexivity.
Qed.

(** X7. For German, [replace_quotes] is a translation of the line character
    by character: the six replacements, made one after the other over the
    whole line, come to making each guillemet and angle bracket straight.
    For Swedish it is the same with the curly quotation marks, and for
    Catalan both translations are made, the guillemets first, and then each
    quotation mark before a period changes place with it, from left to
    right. The German and the Swedish line keep their length. *)
Theorem replace_quotes_translates (line : list Z) :
  replace_quotes GERMAN line = Ok (List.map straight_angle line)
  /\ replace_quotes SWEDISH line = Ok (List.map straight_curly line)
  /\ replace_quotes CATALAN line
     = Ok (str_replace [QUOTE; 46] [46; QUOTE]
             (List.map straight_curly (List.map straight_angle line)))
  /\ length (List.map straight_angle line) = length line
  /\ length (List.map straight_curly line) = length line.
Proof.
  split; [|split; [|split; [|split]]].
  - unfold replace_quotes. cbv zeta.
    replace (lang_in GERMAN [GERMAN; CATALAN]) with true by reflexivity.
    replace (lang_in GERMAN [DUTCH; FRENCH; CATALAN; SWEDISH]) with false
      by reflexivity.
    rewrite straight_angle_steps. reflexivity.
  - unfold replace_quotes. cbv zeta.
    replace (lang_in SWEDISH [GERMAN; CATALAN]) with false by reflexivity.
    replace (lang_in SWEDISH [DUTCH; FRENCH; CATALAN; SWEDISH]) with true
      by reflexivity.
    rewrite straight_curly_steps. reflexivity.
  - rewrite replace_quotes_catalan_eq. unfold catalan_quotes.
    rewrite straight_angle_steps, straight_curly_steps. reflexivity.
  - apply List.length_map.
  - apply List.length_map.
Qed.

End Translation.

(** * [fix_period_spacing] *)

Section Periods.

Variable unicode_alnum : Z -> bool.

Lemma match_at_period (bol adv : bool) (s : list Z) :
  match_at (period_pattern unicode_alnum) bol s adv
  = if period_loose_here unicode_alnum s then
      match s with
      | w1 :: _ :: _ :: w2 :: _ => Some (4%nat, [(2%nat, [w2]); (1%nat, [w1])])
      | _ => None
      end
    else if period_tight_here unicode_alnum s then
      match s with
      | w1 :: _ :: w2 :: _ => Some (3%nat, [(2%nat, [w2]); (1%nat, [w1])])
      | _ => None
      end
    else None.
Proof.
  unfold match_at, period_pattern, period_loose_here, period_tight_here,
    Chr, chr_eq.
  destruct s as [|w1 [|a [|b [|c s]]]]; cbn; unfold consume; cbn;
    repeat match goal with
      | |- context [if ?x then _ else _] => destruct x eqn:?; cbn
      end; rewrite ?accept_S; try reflexivity;
    repeat match goal with
      | H : (_ =? _) = true |- _ => apply Z.eqb_eq in H; subst
      end;
    try (exfalso;
         match goal with
         | H : is_space 46 = true |- _ => vm_compute in H; discriminate H
         end);
    try discriminate; try congruence.
Qed.

Lemma period_tight_not_loose (s : list Z) :
  period_tight_here unicode_alnum s = true ->
  period_loose_here unicode_alnum s = false.
Proof.
  destruct s as [|w1 [|p [|w2 s]]]; try discriminate.
  unfold period_tight_here, period_loose_here. intros H.
  apply andb_prop in H as [H _]. apply andb_prop in H as [_ H].
  apply Z.eqb_eq in H. subst p.
  replace (is_space 46) with false by reflexivity.
  rewrite andb_false_r. destruct s; reflexivity.
Qed.

(** [re.sub(r'(\w)\s?\.(\w)', r'\1. \2', s)] is the left-to-right scan. *)
Lemma sub_scan_period (s : list Z) :
  forall bol : bool,
    sub_scan (period_pattern unicode_alnum) period_template bol s 0
    = period_scan unicode_alnum s.
Proof.
  remember (length s) as n eqn:Hn. revert s Hn.
  induction n as [n IH] using lt_wf_ind. intros s Hn bol.
  destruct s as [|w1 s]; [reflexivity|].
  cbn [sub_scan period_scan]. rewrite match_at_period.
  assert (Hrest : sub_scan (period_pattern unicode_alnum) period_template
                    false s 0 = period_scan unicode_alnum s).
  { apply (IH (length s)); [simpl in Hn; lia|reflexivity]. }
  destruct s as [|p [|x s]]; try (rewrite Hrest; reflexivity).
  destruct (period_tight_here unicode_alnum (w1 :: p :: x :: s)) eqn:Et.
  - rewrite (period_tight_not_loose _ Et).
    cbn [expand period_template group_text Nat.eqb app sub_scan].
    do 4 f_equal.
    apply (IH (length s)); [simpl in Hn; lia|reflexivity].
  - destruct s as [|w2 s].
    + replace (period_loose_here unicode_alnum [w1; p; x]) with false
        by reflexivity.
      rewrite Hrest. reflexivity.
    + destruct (period_loose_here unicode_alnum (w1 :: p :: x :: w2 :: s)).
      * cbn [expand period_template group_text Nat.eqb app sub_scan].
        do 4 f_equal.
        apply (IH (length s)); [simpl in Hn; lia|reflexivity].
      * rewrite Hrest. reflexivity.
Qed.

Lemma fix_period_spacing_eq (line : list Z) :
  fix_period_spacing unicode_alnum line
  = Ok (strip (period_scan unicode_alnum line)).
Proof.
  unfold fix_period_spacing.
  rewrite (re_sub_compiled _ _ period_template) by reflexivity.
  rewrite sub_scan_period. reflexivity.
Qed.

Lemma is_word_not_space (c : Z) :
  is_word unicode_alnum c = true -> c <> 32.
Proof. intros H ->. discriminate H. Qed.

Lemma period_scan_fixed (s : list Z) :
  period_scan unicode_alnum s = s <-> has_period_gap unicode_alnum s = false.
Proof.
  remember (length s) as n eqn:Hn. revert s Hn.
  induction n as [n IH] using lt_wf_ind. intros s Hn.
  destruct s as [|w1 s]; [split; reflexivity|].
  assert (Hrest : period_scan unicode_alnum s = s
                  <-> has_period_gap unicode_alnum s = false).
  { apply (IH (length s)); [simpl in Hn; lia|reflexivity]. }
  assert (Hstep : w1 :: period_scan unicode_alnum s = w1 :: s
                  <-> has_period_gap unicode_alnum s = false).
  { rewrite <- Hrest. split; [intros [= H]; exact H|intros ->; reflexivity]. }
  cbn [period_scan has_period_gap].
  destruct s as [|p [|x s]]; try exact Hstep.
  destruct (period_tight_here unicode_alnum (w1 :: p :: x :: s)) eqn:Et.
  - rewrite orb_true_l. split; [|discriminate].
    intros [= Hp Hx]. exfalso.
    unfold period_tight_here in Et. apply andb_prop in Et as [_ Et].
    apply (is_word_not_space _ Et). symmetry. exact Hx.
  - rewrite orb_false_l. destruct s as [|w2 s].
    + exact Hstep.
    + destruct (period_loose_here unicode_alnum (w1 :: p :: x :: w2 :: s))
        eqn:El.
      * rewrite orb_true_l. split; [|discriminate].
        intros [= Hp Hx]. exfalso.
        unfold period_loose_here in El. apply andb_prop in El as [El _].
        apply andb_prop in El as [El _]. apply andb_prop in El as [_ El].
        subst p. discriminate El.
      * rewrite orb_false_l. exact Hstep.
Qed.

(** X8. [fix_period_spacing] is the left-to-right scan of the line for a
    period between two word characters, with or without a whitespace
    character before the period, followed by the strip: each occurrence
    found is written as word character, period, space, word character, and
    the search goes on behind it. The scan changes the line exactly when
    the line holds such an occurrence. *)
Theorem fix_period_spacing_scan (line : list Z) :
  fix_period_spacing unicode_alnum line
  = Ok (strip (period_scan unicode_alnum line))
  /\ (period_scan unicode_alnum line = line
      <-> has_period_gap unicode_alnum line = false).
Proof. split; [apply fix_period_spacing_eq|apply period_scan_fixed]. Qed.

End Periods.

(** * The loop body on whole lines *)

(** A pattern that requires a character, by the place of that character. *)
Ltac requires leaf :=
  first
    [ apply Requires_cls; solve [leaf]
    | apply Requires_grp; requires leaf
    | apply Requires_cat_l; requires leaf
    | apply Requires_cat_r; requires leaf
    | apply Requires_alt; requires leaf ].

Section WholeLines.

Variable unicode_alnum : Z -> bool.

Lemma returns_and (P1 P2 : Z -> Prop) (m : result (list Z)) :
  returns_in P1 m -> returns_in P2 m -> returns_in (fun c => P1 c /\ P2 c) m.
Proof.
  intros (out & -> & H1) (out' & [= <-] & H2).
  exists out. split; [reflexivity|]. apply Forall_and. split; assumption.
Qed.

Lemma collapse_spaces (s : list Z) :
  forall b : bool,
    Forall (fun c => is_space c = true -> c = 32) (collapse b s).
Proof.
  induction s as [|c s IH]; intros b; simpl; [constructor|].
  destruct (is_space c) eqn:E.
  - destruct b; [apply IH|]. constructor; [reflexivity|apply IH].
  - constructor; [|apply IH]. intros H. congruence.
Qed.

Lemma literal_space (c : Z) :
  literal c = true -> is_space c = true -> c = 32.
Proof.
  unfold literal, written_chars. cbn [existsb app str].
  intros H. repeat (apply orb_prop in H as [H|H];
                    [apply Z.eqb_eq in H; subst c; intros Hs;
                     first [reflexivity|discriminate Hs]|]).
  discriminate.
Qed.

Lemma literal_no_dash (c : Z) :
  literal c = true -> is_dash_or_ellipsis c = false.
Proof.
  unfold literal, written_chars. cbn [existsb app str].
  intros H. repeat (apply orb_prop in H as [H|H];
                    [apply Z.eqb_eq in H; subst c; reflexivity|]).
  discriminate.
Qed.

(** X9. The loop body looks at the words of the line only: two lines with
    the same words, whatever whitespace stands between and around them,
    give the same result. *)
Theorem process_line_words (language : string) (line1 line2 : list Z) :
  words line1 = words line2 ->
  process_line unicode_alnum language line1
  = process_line unicode_alnum language line2.
Proof.
  intros H. rewrite !process_line_eq, !remove_double_spaces_eq.
  rewrite !strip_collapse_words, H. reflexivity.
Qed.

(** X10. For the six languages without the apostrophe step, the loop body
    returns a line in which every whitespace character is the space U+0020
    and which holds no figure dash, en dash, em dash or ellipsis. *)
Theorem process_line_alphabet (language : string) (line : list Z) :
  lang_in language [ENGLISH; DUTCH; GERMAN] = false ->
  exists out : list Z,
    process_line unicode_alnum language line = Ok out
    /\ Forall (fun c => (is_space c = true -> c = 32)
                        /\ is_dash_or_ellipsis c = false) out.
Proof.
  intros Hlang. rewrite process_line_eq, remove_double_spaces_eq, Hlang.
  cbn [bind]. unfold late_steps.
  set (P := fun c => (is_space c = true -> c = 32)
                     /\ is_dash_or_ellipsis c = false).
  assert (HP : forall c, literal c = true -> P c).
  { intros c Hc. split; [apply literal_space, Hc|apply literal_no_dash, Hc]. }
  change (returns_in P
    (try l6 <-
       (try l3 <- replace_common_errors language
                    (remove_soft_hyphens (strip (collapse false line))) in
        try l4 <- fix_period_spacing unicode_alnum l3 in
        try l5 <- fix_hyphenization unicode_alnum language l4 in
        replace_quotes language l5) in
     Ok l6)).
  rewrite bind_ret.
  apply returns_bind.
  - apply returns_and; [|apply replace_common_errors_clean].
    apply replace_common_errors_in; [apply literal_space|].
    apply remove_soft_hyphens_in, strip_in, collapse_spaces.
  - intros l3 H3.
    apply returns_bind; [apply fix_period_spacing_in; assumption|intros l4 H4].
    apply returns_bind; [apply fix_hyphenization_in; assumption|intros l5 H5].
    apply replace_quotes_in; assumption.
Qed.

Lemma if_same {A : Type} (b : bool) (x : A) : (if b then x else x) = x.
Proof. destruct b; reflexivity. Qed.

Lemma re_sub_requires (Q : Z -> Prop) (r : regex) (repl : list Z)
    (tpl : list titem) (s : list Z) :
  parse_template (ngroups r) repl = Ok tpl ->
  Requires Q r -> Forall Q s -> re_sub r repl s = Ok s.
Proof.
  intros Hp Hr Hs. rewrite (re_sub_compiled _ _ _ _ Hp).
  rewrite (sub_scan_requires Q) by assumption. reflexivity.
Qed.

Lemma plain_not_special (c m : Z) :
  existsb (Z.eqb m) special_chars = true -> plain c = true -> c <> m.
Proof.
  intros Hm Hc ->. unfold plain in Hc. rewrite Hm in Hc. discriminate.
Qed.

Ltac plain_leaf :=
  let c := fresh "c" in
  let Hc := fresh "Hc" in
  intros c Hc; unfold chr_eq; apply Z.eqb_neq;
  apply (plain_not_special c); [reflexivity|exact Hc].

Section PlainText.

Variable line : list Z.
Hypothesis plain_line : Forall (fun c => plain c = true) line.

Lemma str_replace_plain (o : Z) (old new : list Z) :
  existsb (Z.eqb o) special_chars = true ->
  str_replace (o :: old) new line = line.
Proof.
  intros Ho. apply (str_replace_absent (fun c => plain c = true));
    [|exact plain_line].
  intros c Hc. apply (plain_not_special c o Ho Hc).
Qed.

Lemma re_sub_plain (r : regex) (repl : list Z) (tpl : list titem) :
  parse_template (ngroups r) repl = Ok tpl ->
  Requires (fun c => plain c = true) r ->
  re_sub r repl line = Ok line.
Proof. intros Hp Hr. exact (re_sub_requires _ _ _ _ _ Hp Hr plain_line). Qed.

Lemma remove_soft_hyphens_plain : remove_soft_hyphens line = line.
Proof.
  unfold remove_soft_hyphens. cbv zeta.
  rewrite (str_replace_plain SOFT_HYPHEN) by reflexivity.
  apply str_replace_plain. reflexivity.
Qed.

Lemma replace_common_errors_plain (language : string) :
  replace_common_errors language line = Ok line.
Proof.
  unfold replace_common_errors. cbv zeta.
  do 3 (rewrite (re_sub_plain _ _ dash_template);
        [|reflexivity|requires plain_leaf]; cbn [bind]).
  rewrite (str_replace_plain ELLIPSIS) by reflexivity.
  rewrite (str_replace_two_absent 69 APOSTROPHE), if_same; [reflexivity|].
  eapply Forall_impl; [exact plain_line|].
  intros c Hc. apply (plain_not_special c); [reflexivity|exact Hc].
Qed.

Lemma fix_hyphenization_plain (language : string) :
  fix_hyphenization unicode_alnum language line = Ok line.
Proof.
  unfold fix_hyphenization. cbv zeta.
  rewrite (re_sub_plain _ _ hyphen_template);
    [|reflexivity|requires plain_leaf].
  cbn [bind].
  change (str "-en ") with (45 :: str "en ").
  change (str "-of ") with (45 :: str "of ").
  change (str "-und ") with (45 :: str "und ").
  change (str "-oder ") with (45 :: str "oder ").
  rewrite !(str_replace_plain 45), if_same by reflexivity.
  rewrite !(str_replace_plain 45), if_same by reflexivity.
  reflexivity.
Qed.

Lemma replace_quotes_plain (language : string) :
  replace_quotes language line = Ok line.
Proof.
  unfold replace_quotes. cbv zeta.
  change (str "<") with [60]. change (str ">") with [62].
  rewrite !(str_replace_plain LEFT_GUILLEMET),
    !(str_replace_plain RIGHT_GUILLEMET),
    !(str_replace_plain LEFT_SINGLE_GUILLEMET),
    !(str_replace_plain RIGHT_SINGLE_GUILLEMET),
    !(str_replace_plain 60), !(str_replace_plain 62), !if_same by reflexivity.
  rewrite !(str_replace_plain LEFT_DOUBLE_QUOTE),
    !(str_replace_plain RIGHT_DOUBLE_QUOTE),
    !(str_replace_plain LEFT_SINGLE_QUOTE),
    !(str_replace_plain RIGHT_SINGLE_QUOTE), !if_same by reflexivity.
  rewrite (re_sub_plain french_apostrophe_pattern _ [TLit APOSTROPHE]);
    [|reflexivity|requires plain_leaf].
  rewrite if_same. cbn [bind].
  rewrite (str_replace_plain APOSTROPHE) by reflexivity.
  rewrite (re_sub_plain dutch_closing_pattern _ [TLit QUOTE; TGroup 1]);
    [|reflexivity|requires plain_leaf].
  cbn [bind].
  rewrite (re_sub_plain dutch_comma_pattern _ [TGroup 1; TLit QUOTE]);
    [|reflexivity|requires plain_leaf].
  cbn [bind].
  rewrite (str_replace_plain QUOTE) by reflexivity.
  rewrite if_same. cbn [bind].
  rewrite (str_replace_plain QUOTE) by reflexivity.
  rewrite (re_sub_plain russian_hyphen_pattern _ [TGroup 1]);
    [|reflexivity|requires plain_leaf].
  cbn [bind].
  rewrite (re_sub_plain russian_closing_pattern _ [TGroup 1; TGroup 2]);
    [|reflexivity|requires plain_leaf].
  cbn [bind].
  rewrite (re_sub_plain russian_quote_hyphen_pattern _
             [TGroup 1; TGroup 2; TLit 32; TLit 45]);
    [|reflexivity|requires plain_leaf].
  cbn [bind].
  rewrite (re_sub_plain russian_opening_pattern _ [TGroup 1]);
    [|reflexivity|requires plain_leaf].
  rewrite if_same. cbn [bind].
  rewrite (re_sub_plain catalan_period_pattern _ catalan_template);
    [|reflexivity|requires plain_leaf].
  apply if_same.
Qed.

End PlainText.

(** X11. Plain text passes through the loop body as it is. For a language
    without the apostrophe step, a line that [remove_double_spaces] leaves
    as it is (its words with one space between them), that holds none of
    the characters the rules look for (soft hyphen, middle dot, dashes,
    ellipsis, hyphen-minus, straight and curly quotation marks, guillemets,
    angle brackets) and in which no period stands between two word
    characters, is returned unchanged. *)
Theorem process_line_plain_text (language : string) (line : list Z) :
  lang_in language [ENGLISH; DUTCH; GERMAN] = false ->
  remove_double_spaces line = Ok line ->
  forallb plain line = true ->
  has_period_gap unicode_alnum line = false ->
  process_line unicode_alnum language line = Ok line.
Proof.
  intros Hlang Hspaces Hplain Hgap.
  assert (HQ : Forall (fun c => plain c = true) line).
  { apply List.Forall_forall. intros c Hc.
    exact (proj1 (forallb_forall plain line) Hplain c Hc). }
  assert (Hstrip : strip line = line).
  { rewrite remove_double_spaces_eq in Hspaces. injection Hspaces as Hl.
    rewrite <- Hl at 1. rewrite strip_strip. exact Hl. }
  unfold process_line. rewrite Hspaces. cbn [bind].
  rewrite (remove_soft_hyphens_plain line HQ).
  rewrite (replace_common_errors_plain line HQ). cbn [bind].
  rewrite fix_period_spacing_eq.
  rewrite (proj2 (period_scan_fixed unicode_alnum line) Hgap), Hstrip.
  cbn [bind].
  rewrite (fix_hyphenization_plain line HQ). cbn [bind].
  rewrite (replace_quotes_plain line HQ). cbn [bind].
  rewrite Hlang. reflexivity.
Qed.

End WholeLines.

(** * The outcomes of [process_file] and [process_folder] *)

Section Outcomes.

Variable unicode_alnum : Z -> bool.

Lemma read_lines_apostrophe_languages (language : string) (f_in : stream) :
  lang_in language [ENGLISH; DUTCH; GERMAN] = true ->
  forall acc : list (list Z),
    read_lines unicode_alnum language f_in acc
    = if existsb nonblank (stream_lines f_in)
      then Raise (ReError "bad escape")
      else if decodable f_in then Ok acc else Raise UnicodeDecodeError.
Proof.
  intros Hlang. induction f_in as [|line rest IH|]; intros acc;
    [reflexivity| |reflexivity].
  cbn [read_lines stream_lines existsb decodable].
  destruct (nonblank line); cbn [orb].
  - rewrite process_line_raises by exact Hlang. reflexivity.
  - apply IH.
Qed.

(** X12. For English, Dutch and German [process_file] never writes a line:
    it raises [re.error] as soon as the reader yields a line that is not
    blank, it raises [UnicodeDecodeError] when the reader raises it after
    yielding blank lines only, and it writes the empty text when the reader
    yields blank lines only and ends. *)
Theorem process_file_apostrophe_languages (language : string)
    (f_in : stream) :
  lang_in language [ENGLISH; DUTCH; GERMAN] = true ->
  process_file unicode_alnum language f_in
  = if existsb nonblank (stream_lines f_in)
    then Raise (ReError "bad escape")
    else if decodable f_in then Ok [] else Raise UnicodeDecodeError.
Proof.
  intros Hlang. unfold process_file.
  rewrite read_lines_apostrophe_languages by exact Hlang.
  destruct (existsb nonblank (stream_lines f_in)); [reflexivity|].
  destruct (decodable f_in); reflexivity.
Qed.

Lemma read_lines_undecodable (language : string) (f_in : stream) :
  lang_in language [ENGLISH; DUTCH; GERMAN] = false ->
  decodable f_in = false ->
  forall acc : list (list Z),
    read_lines unicode_alnum language f_in acc = Raise UnicodeDecodeError.
Proof.
  intros Hlang. induction f_in as [|line rest IH|]; intros Hdec acc;
    [discriminate| |reflexivity].
  cbn [read_lines]. simpl in Hdec.
  destruct (nonblank line); [|apply IH, Hdec].
  destruct (process_line_returns unicode_alnum language line Hlang)
    as (out & -> & _).
  cbn [bind]. apply IH, Hdec.
Qed.

(** X13. For the six languages without the apostrophe step, when the
    reader raises [UnicodeDecodeError] at some turn of the loop,
    [process_file] raises it, whatever lines the reader has yielded before:
    each of them is processed without error, and nothing is written. *)
Theorem process_file_undecodable (language : string) (f_in : stream) :
  lang_in language [ENGLISH; DUTCH; GERMAN] = false ->
  decodable f_in = false ->
  process_file unicode_alnum language f_in = Raise UnicodeDecodeError.
Proof.
  intros Hlang Hdec. unfold process_file.
  rewrite read_lines_undecodable by assumption. reflexivity.
Qed.

Lemma process_file_returns (language : string) (f_in : stream) :
  lang_in language [ENGLISH; DUTCH; GERMAN] = false ->
  decodable f_in = true ->
  exists outs : list (list Z),
    process_file unicode_alnum language f_in = Ok (paragraphs outs)
    /\ Forall2 (fun line out =>
                  process_line unicode_alnum language line = Ok out
                  /\ ~ In NEWLINE out)
         (List.filter nonblank (stream_lines f_in)) outs.
Proof.
  intros Hlang Hdec.
  destruct (read_lines_returns unicode_alnum language f_in Hlang Hdec [])
    as (outs & Hread & H).
  exists outs. split; [|exact H].
  unfold process_file. rewrite Hread. cbn [bind app].
  rewrite write_lines_app. reflexivity.
Qed.

Lemma all_succeed (language : string) (files : list (string * stream)) :
  lang_in language [ENGLISH; DUTCH; GERMAN] = false ->
  forallb (fun file => decodable file.2) files = true ->
  forallb (fun file => succeeds (process_file unicode_alnum language file.2))
    files = true.
Proof.
  intros Hlang. induction files as [|[name g] files IH]; [reflexivity|].
  cbn [forallb snd]. intros H. apply andb_prop in H as [Hg H].
  rewrite (IH H), andb_true_r.
  destruct (process_file_returns language g Hlang Hg) as (outs & -> & _).
  reflexivity.
Qed.

(** X14. For the six languages without the apostrophe step, a batch of
    files that are all UTF-8 is processed to its end: [process_folder]
    returns normally, a name of the folder that is no file of the batch
    keeps its text, and the name of each file of the batch holds the
    paragraphs of its last file of that name, one for each line that is not
    blank. *)
Theorem process_folder_all_written (language : string)
    (files : list (string * stream)) (folder_out : gmap string (list Z)) :
  lang_in language [ENGLISH; DUTCH; GERMAN] = false ->
  forallb (fun file => decodable file.2) files = true ->
  exists folder : gmap string (list Z),
    process_folder unicode_alnum language files folder_out = (folder, Ok tt)
    /\ (forall name : string,
          name ∉ files.*1 -> folder !! name = folder_out !! name)
    /\ (forall before name g after,
          files = before ++ (name, g) :: after ->
          name ∉ after.*1 ->
          exists outs : list (list Z),
            folder !! name = Some (paragraphs outs)
            /\ Forall2 (fun line out =>
                          process_line unicode_alnum language line = Ok out)
                 (List.filter nonblank (stream_lines g)) outs).
Proof.
  intros Hlang Hdec.
  exists (written unicode_alnum language files folder_out).
  split; [|split].
  - rewrite <- (app_nil_r files) at 1.
    rewrite process_folder_written by (apply all_succeed; assumption).
    reflexivity.
  - intros name. apply written_other.
  - intros before name g after -> Hname.
    assert (Hg : decodable g = true).
    { rewrite forallb_app in Hdec. apply andb_prop in Hdec as [_ Hdec].
      cbn [forallb snd] in Hdec. apply andb_prop in Hdec as [Hg _].
      exact Hg. }
    destruct (process_file_returns language g Hlang Hg) as (outs & Hout & H).
    exists outs. split.
    + apply written_last; assumption.
    + eapply Forall2_impl; [exact H|]. intros line out [Hl _]. exact Hl.
Qed.

End Outcomes.

(** * [replace_quotes]: French *)

Section French.

Lemma match_at_french_ink (bol adv : bool) (s : list Z) (n : nat)
    (g : list (nat * list Z)) :
  match_at french_apostrophe_pattern bol s adv = Some (n, g) ->
  (1 <= n <= length s)%nat
  /\ ink (expand [TLit APOSTROPHE] g) = ink (take n s).
Proof.
  unfold match_at, french_apostrophe_pattern, Chr, chr_eq.
  destruct s as [|sp [|a s]]; cbn; unfold consume; cbn;
    try discriminate.
  - destruct (is_space sp); discriminate.
  - destruct (is_space sp) eqn:Esp; [|discriminate]. cbn.
    destruct (a =? APOSTROPHE) eqn:Ea; [|discriminate]. cbn.
    rewrite ?accept_S. intros [= <- <-]. split; [simpl; lia|].
    apply Z.eqb_eq in Ea. subst a.
    unfold ink. cbn [expand app take List.filter]. rewrite Esp. reflexivity.
Qed.

(** X15. For French, [replace_quotes] makes the curly quotation marks
    straight and deletes whitespace, and nothing else: the characters of
    its result other than whitespace are those of the line, with the curly
    quotation marks made straight, in the same order. *)
Theorem replace_quotes_french_ink (line : list Z) :
  exists out : list Z,
    replace_quotes FRENCH line = Ok out
    /\ ink out = ink (List.map straight_curly line).
Proof.
  unfold replace_quotes. cbv zeta.
  replace (lang_in FRENCH [GERMAN; CATALAN]) with false by reflexivity.
  replace (lang_in FRENCH [DUTCH; FRENCH; CATALAN; SWEDISH]) with true
    by reflexivity.
  replace (String.eqb FRENCH FRENCH) with true by reflexivity.
  replace (String.eqb FRENCH DUTCH) with false by reflexivity.
  replace (String.eqb FRENCH RUSSIAN) with false by reflexivity.
  replace (String.eqb FRENCH CATALAN) with false by reflexivity.
  rewrite straight_curly_steps.
  rewrite (re_sub_compiled _ _ [TLit APOSTROPHE]) by reflexivity.
  cbn [bind]. eexists. split; [reflexivity|].
  apply sub_scan_ink. intros bol s adv n g. apply match_at_french_ink.
Qed.

End French.

(** * Concrete instances *)

(** C3, as stated, fails: the second file of this batch is well formed, and
    after the failure of the first it is not processed. *)
Lemma process_folder_aborts_batch :
  process_file ascii_only FRENCH (Line (str "x" ++ [NEWLINE]) Eof)
  = Ok (str "x" ++ [NEWLINE; NEWLINE])
  /\ process_folder ascii_only FRENCH
       [("a.txt"%string, Undecodable);
        ("b.txt"%string, Line (str "x" ++ [NEWLINE]) Eof)] ∅
     = (∅, Raise UnicodeDecodeError).
Proof. split; reflexivity. Qed.

(** C3 (amended) on a batch of three files, the second of which does not
    decode. *)
Lemma process_folder_stops_at_failure_witness :
  process_folder ascii_only FRENCH
    ([("a.txt"%string, Line (str "x" ++ [NEWLINE]) Eof)]
     ++ ("b.txt"%string, Undecodable)
        :: [("c.txt"%string, Line (str "y" ++ [NEWLINE]) Eof)]) ∅
  = (written ascii_only FRENCH
       [("a.txt"%string, Line (str "x" ++ [NEWLINE]) Eof)] ∅,
     Raise UnicodeDecodeError).
Proof.
  apply (process_folder_stops_at_failure ascii_only FRENCH
           [("a.txt"%string, Line (str "x" ++ [NEWLINE]) Eof)]
           "b.txt"%string Undecodable
           [("c.txt"%string, Line (str "y" ++ [NEWLINE]) Eof)] ∅
           UnicodeDecodeError); reflexivity.
Defined.

(** C10 on a French line with a soft hyphen and a middle dot. *)
Lemma process_line_no_soft_hyphen_witness :
  ~ In SOFT_HYPHEN (str "l'eau est-elle. La")
  /\ ~ In MIDDLE_DOT (str "l'eau est-elle. La").
Proof.
  apply (process_line_no_soft_hyphen ascii_only FRENCH
           (str "  l 'eau  est-  elle.La" ++ [SOFT_HYPHEN; MIDDLE_DOT; NEWLINE])).
  reflexivity.
Defined.

(** C2 on a French line. *)
Lemma process_file_line_is_pipeline_witness :
  process_file ascii_only FRENCH (Line (str "l 'eau" ++ [NEWLINE]) Eof)
  = (try out <- run_steps (pipeline_steps ascii_only FRENCH)
                  (str "l 'eau" ++ [NEWLINE]) in
     Ok (out ++ [NEWLINE; NEWLINE])).
Proof.
  apply (process_file_line_is_pipeline ascii_only FRENCH
           (str "l 'eau" ++ [NEWLINE])).
  reflexivity.
Defined.

(** The paragraphs of a Spanish file of two lines with a blank line between
    them. *)
Lemma process_file_paragraphs_witness :
  exists outs : list (list Z),
    process_file ascii_only SPANISH
      (Line (str "uno  dos" ++ [NEWLINE])
         (Line (str "  " ++ [NEWLINE]) (Line (str "tres.Cuatro") Eof)))
    = Ok (paragraphs outs)
    /\ Forall2 (fun line out =>
                  process_line ascii_only SPANISH line = Ok out
                  /\ ~ In NEWLINE out)
         [str "uno  dos" ++ [NEWLINE]; str "tres.Cuatro"] outs.
Proof.
  apply (process_file_paragraphs ascii_only SPANISH
           (Line (str "uno  dos" ++ [NEWLINE])
              (Line (str "  " ++ [NEWLINE]) (Line (str "tres.Cuatro") Eof))));
    reflexivity.
Defined.

(** C5 (amended) on a quotation in guillemets, with the period behind the
    closing mark and with the period before it, and on a period between two
    quotation marks, which the first mark sends in front of itself. *)
Lemma replace_quotes_catalan_period_witness :
  replace_quotes CATALAN ([LEFT_GUILLEMET] ++ str "si" ++ [RIGHT_GUILLEMET; 46])
  = Ok ([QUOTE] ++ str "si" ++ [46; QUOTE])
  /\ replace_quotes CATALAN
       ([LEFT_GUILLEMET] ++ str "si" ++ [46; RIGHT_GUILLEMET])
     = Ok ([QUOTE] ++ str "si" ++ [46; QUOTE])
  /\ replace_quotes CATALAN [QUOTE; 46; QUOTE] = Ok [46; QUOTE; QUOTE].
Proof.
  destruct (replace_quotes_catalan_period ([LEFT_GUILLEMET] ++ str "si") [])
    as (a' & b' & Ha & Hb & H1 & H2).
  specialize (H2 eq_refl eq_refl).
  assert (Ea : a' = [QUOTE] ++ str "si") by (injection Ha as <-; reflexivity).
  assert (Eb : b' = []) by (injection Hb as <-; reflexivity).
  subst a' b'.
  destruct (replace_quotes_catalan_period [] [QUOTE])
    as (c' & d' & Hc & Hd & H3 & _).
  assert (Ec : c' = []) by (injection Hc as <-; reflexivity).
  assert (Ed : d' = [QUOTE]) by (injection Hd as <-; reflexivity).
  subst c' d'.
  split; [|split].
  - exact (proj1 (List.Forall_forall _ _) H1 RIGHT_GUILLEMET
             ltac:(right; right; left; reflexivity)).
  - exact (proj1 (List.Forall_forall _ _) H2 RIGHT_GUILLEMET
             ltac:(right; right; left; reflexivity)).
  - exact (proj1 (List.Forall_forall _ _) H3 QUOTE
             ltac:(left; reflexivity)).
Defined.

(** X9 on a Spanish line with a tab, a no-break space and its newline. *)
Lemma process_line_words_witness :
  process_line ascii_only SPANISH
    ([9] ++ str "hola" ++ [160; 32] ++ str "mundo " ++ [NEWLINE])
  = process_line ascii_only SPANISH (str "hola mundo").
Proof.
  apply (process_line_words ascii_only SPANISH
           ([9] ++ str "hola" ++ [160; 32] ++ str "mundo " ++ [NEWLINE])
           (str "hola mundo")).
  reflexivity.
Defined.

(** X10 on a French line with a tab, an en dash and an ellipsis. *)
Lemma process_line_alphabet_witness :
  exists out : list Z,
    process_line ascii_only FRENCH
      (str "oui" ++ [9; EN_DASH] ++ str "non" ++ [ELLIPSIS; NEWLINE])
    = Ok out
    /\ Forall (fun c => (is_space c = true -> c = 32)
                        /\ is_dash_or_ellipsis c = false) out.
Proof.
  apply (process_line_alphabet ascii_only FRENCH
           (str "oui" ++ [9; EN_DASH] ++ str "non" ++ [ELLIPSIS; NEWLINE])).
  reflexivity.
Defined.

(** X11 on a Spanish sentence. *)
Lemma process_line_plain_text_witness :
  process_line ascii_only SPANISH (str "Hola, mundo. Hasta luego.")
  = Ok (str "Hola, mundo. Hasta luego.").
Proof.
  apply (process_line_plain_text ascii_only SPANISH
           (str "Hola, mundo. Hasta luego.")); reflexivity.
Defined.

(** X12 on an English run of the reader: it yields a blank line and a
    line, and raises at the next turn, as it does on a file of these two
    lines, a third line of a hundred letters and a byte that is not UTF-8
    behind it. *)
Lemma process_file_apostrophe_languages_witness :
  process_file ascii_only ENGLISH
    (Line (str " " ++ [NEWLINE]) (Line (str "a" ++ [NEWLINE]) Undecodable))
  = Raise (ReError "bad escape").
Proof.
  apply (process_file_apostrophe_languages ascii_only ENGLISH
           (Line (str " " ++ [NEWLINE])
              (Line (str "a" ++ [NEWLINE]) Undecodable))).
  reflexivity.
Defined.

(** X13 on a French run of the reader: it yields one line and raises at
    the next turn, as it does on a file of this line, a second line of a
    hundred letters and a byte that is not UTF-8 behind it. *)
Lemma process_file_undecodable_witness :
  process_file ascii_only FRENCH (Line (str "x" ++ [NEWLINE]) Undecodable)
  = Raise UnicodeDecodeError.
Proof.
  apply (process_file_undecodable ascii_only FRENCH
           (Line (str "x" ++ [NEWLINE]) Undecodable)); reflexivity.
Defined.

(** X14 on a French batch of two files. *)
Lemma process_folder_all_written_witness :
  exists folder : gmap string (list Z),
    process_folder ascii_only FRENCH
      [("a.txt"%string, Line (str "x" ++ [NEWLINE]) Eof);
       ("b.txt"%string, Line (str "y  z" ++ [NEWLINE]) Eof)] ∅
    = (folder, Ok tt)
    /\ (forall name : string,
          name ∉ [("a.txt"%string, Line (str "x" ++ [NEWLINE]) Eof);
                  ("b.txt"%string, Line (str "y  z" ++ [NEWLINE]) Eof)].*1 ->
          folder !! name = (∅ : gmap string (list Z)) !! name)
    /\ (forall before name g after,
          [("a.txt"%string, Line (str "x" ++ [NEWLINE]) Eof);
           ("b.txt"%string, Line (str "y  z" ++ [NEWLINE]) Eof)]
          = before ++ (name, g) :: after ->
          name ∉ after.*1 ->
          exists outs : list (list Z),
            folder !! name = Some (paragraphs outs)
            /\ Forall2 (fun line out =>
                          process_line ascii_only FRENCH line = Ok out)
                 (List.filter nonblank (stream_lines g)) outs).
Proof.
  apply (process_folder_all_written ascii_only FRENCH
           [("a.txt"%string, Line (str "x" ++ [NEWLINE]) Eof);
            ("b.txt"%string, Line (str "y  z" ++ [NEWLINE]) Eof)] ∅);
    reflexivity.
Defined.
